(** * betty front-end (cmd/bettyfe/main.go): checkpoint lifecycle,
      request handler, latency aggregator and stats reporter.

    The development is a shallow embedding of [main.go].  Go values are
    modelled as follows:
    - [uint64], [int] and [time.Duration] are [Z] with the wrap-around of
      the machine type written out ([wrapU64], [wrapI64]);
    - a Go [string] is a [string]; a [[]byte] is a [list byte]; the
      conversions [[]byte(s)] and [string(b)] are [list_byte_of_string]
      and [string_of_list_byte];
    - a [nil] slice and an empty one are both the empty list;
    - an [error] is the value below; the [nil] error is [None];
    - the interfaces [note.Signer], [note.Verifier], [Storage] and the
      file system behind package [posix] are records and type classes. *)

From Stdlib Require Import ZArith NArith Lia Bool List.
From Stdlib Require Import Strings.String Strings.Ascii Strings.Byte.
From Stdlib Require Import Numbers.DecimalString Numbers.DecimalN Numbers.DecimalFacts.
From stdpp Require Import base option list gmap strings.

Import ListNotations.
Local Open Scope Z_scope.

(** ** Machine integers *)

Definition wrapU64 (z : Z) : Z := z mod 2 ^ 64.

Definition wrapI64 (z : Z) : Z := (z + 2 ^ 63) mod 2 ^ 64 - 2 ^ 63.

Definition isU64 (z : Z) : Prop := 0 <= z < 2 ^ 64.

Definition isI64 (z : Z) : Prop := - 2 ^ 63 <= z < 2 ^ 63.

(** ** Errors

    [fmt.Errorf] with the verb [%v] renders its operand's text into a new
    error that has no [Unwrap] method; an error built with [%w], or an
    [*fs.PathError], keeps the error it was built from. *)

Inductive error : Type :=
| errorString (text : string)
| wrapError (text : string) (inner : error).

Definition Error (e : error) : string :=
  match e with
  | errorString s => s
  | wrapError s _ => s
  end.

Definition Unwrap (e : error) : option error :=
  match e with
  | errorString _ => None
  | wrapError _ inner => Some inner
  end.

(** [errors.Is]: walks the [Unwrap] chain looking for [target]. *)
Fixpoint errors_Is (e target : error) {struct e} : Prop :=
  e = target \/
  match e with
  | errorString _ => False
  | wrapError _ inner => errors_Is inner target
  end.

(** [fmt.Errorf(prefix + "%v", e)]. *)
Definition Errorf_v (prefix : string) (e : error) : error :=
  errorString (prefix +:+ Error e).

(** A Go result [(T, error)]: exactly one of the two is meaningful. *)
Inductive result (T : Type) : Type :=
| Ok (v : T)
| Err (e : error).
Arguments Ok {T} v.
Arguments Err {T} e.

(** ** Decimal rendering ([%d], [strconv.ParseUint(s, 10, 64)]) *)

Definition digit_of_byte (b : byte) : option (Decimal.uint -> Decimal.uint) :=
  match b with
  | x30 => Some Decimal.D0 | x31 => Some Decimal.D1 | x32 => Some Decimal.D2
  | x33 => Some Decimal.D3 | x34 => Some Decimal.D4 | x35 => Some Decimal.D5
  | x36 => Some Decimal.D6 | x37 => Some Decimal.D7 | x38 => Some Decimal.D8
  | x39 => Some Decimal.D9
  | _ => None
  end.

Fixpoint bytes_of_uint (d : Decimal.uint) : list byte :=
  match d with
  | Decimal.Nil => []
  | Decimal.D0 d => x30 :: bytes_of_uint d
  | Decimal.D1 d => x31 :: bytes_of_uint d
  | Decimal.D2 d => x32 :: bytes_of_uint d
  | Decimal.D3 d => x33 :: bytes_of_uint d
  | Decimal.D4 d => x34 :: bytes_of_uint d
  | Decimal.D5 d => x35 :: bytes_of_uint d
  | Decimal.D6 d => x36 :: bytes_of_uint d
  | Decimal.D7 d => x37 :: bytes_of_uint d
  | Decimal.D8 d => x38 :: bytes_of_uint d
  | Decimal.D9 d => x39 :: bytes_of_uint d
  end.

Fixpoint uint_of_bytes (l : list byte) : option Decimal.uint :=
  match l with
  | [] => Some Decimal.Nil
  | b :: l =>
      match digit_of_byte b, uint_of_bytes l with
      | Some f, Some d => Some (f d)
      | _, _ => None
      end
  end.

(** [%d] of an unsigned integer. *)
Definition FormatUint (z : Z) : list byte := bytes_of_uint (N.to_uint (Z.to_N z)).

(** [strconv.ParseUint(s, 10, 64)]: the empty string and any non-digit
    are syntax errors, a value above [2^64 - 1] is a range error. *)
Definition ParseUint (l : list byte) : result Z :=
  match l with
  | [] => Err (errorString "strconv.ParseUint: parsing empty input: invalid syntax")
  | _ =>
      match uint_of_bytes l with
      | None => Err (errorString "strconv.ParseUint: invalid syntax")
      | Some d =>
          let z := Z.of_N (N.of_uint d) in
          if z <? 2 ^ 64 then Ok z
          else Err (errorString "strconv.ParseUint: value out of range")
      end
  end.

(** ** [time.Duration] and its [String] method *)

Definition Duration := Z.

Definition Nanosecond : Duration := 1.
Definition Microsecond : Duration := 1000 * Nanosecond.
Definition Millisecond : Duration := 1000 * Microsecond.
Definition Second : Duration := 1000 * Millisecond.

(** [fmtFrac]: the low [prec] decimal digits of [v] as a fraction written
    in front of [buf], trailing zeros and a bare point omitted; returns
    [v / 10^prec] too. *)
Fixpoint fmtFrac_loop (prec : nat) (v : Z) (print : bool) (buf : list byte)
  : list byte * Z * bool :=
  match prec with
  | O => (buf, v, print)
  | S prec' =>
      let digit := v mod 10 in
      let print := print || negb (digit =? 0) in
      let buf := if print then FormatUint digit ++ buf else buf in
      fmtFrac_loop prec' (v / 10) print buf
  end.

Definition fmtFrac (buf : list byte) (v : Z) (prec : nat) : list byte * Z :=
  let '(buf, v, print) := fmtFrac_loop prec v false buf in
  (if print then x2e :: buf else buf, v).

(** [fmtInt]: [v] in decimal written in front of [buf]. *)
Definition fmtInt (buf : list byte) (v : Z) : list byte := FormatUint v ++ buf.

Definition Duration_format (d : Duration) : list byte :=
  let neg := d <? 0 in
  let u := wrapU64 (if neg then - d else d) in
  let w :=
    if u <? Second then
      if u =? 0 then [x30; x73]
      else
        let '(prec, unit) :=
          if u <? Microsecond then (0%nat, [x6e; x73])
          else if u <? Millisecond then (3%nat, [xc2; xb5; x73])
          else (6%nat, [x6d; x73]) in
        let '(w, u) := fmtFrac unit u prec in
        fmtInt w u
    else
      let '(w, u) := fmtFrac [x73] u 9 in
      let w := fmtInt w (u mod 60) in
      let u := u / 60 in
      if 0 <? u then
        let w := fmtInt (x6d :: w) (u mod 60) in
        let u := u / 60 in
        if 0 <? u then fmtInt (x68 :: w) u else w
      else w in
  if neg then x2d :: w else w.

Definition Duration_String (d : Duration) : string :=
  string_of_list_byte (Duration_format d).

(** ** The latency aggregator (main.go, [latency]) *)

Record latency : Type := mkLatency {
  total : Duration;
  n : Z;
  min : Duration;
  max : Duration
}.

(** [&latency{}]: every field has its zero value. *)
Definition latency_zero : latency := mkLatency 0 0 0 0.

Definition latency_Add (l : latency) (d : Duration) : latency :=
  let total' := wrapI64 (total l + d) in
  let n' := wrapI64 (n l + 1) in
  let min' := if d <? min l then d else min l in
  let max' := if d >? max l then d else max l in
  mkLatency total' n' min' max'.

(** The quotient is an [int64] division: it truncates toward zero, and
    the one quotient that does not fit, [MinInt64 / -1], wraps around. *)
Definition latency_String (l : latency) : string :=
  if n l =? 0 then "--"%string
  else "[Mean: " +:+ Duration_String (wrapI64 (Z.quot (total l) (n l)))
       +:+ " Min: " +:+ Duration_String (min l)
       +:+ " Max " +:+ Duration_String (max l) +:+ "]".

(** ** Bytes *)

Definition LF : byte := x0a.
Definition SP : byte := x20.

#[global] Instance byte_eq_decision : EqDecision byte := Byte.byte_eq_dec.

Definition bytes_eqb (a b : list byte) : bool :=
  bool_decide (a = b).

(** [bytes.HasPrefix]; on success the remainder is returned as well. *)
Fixpoint CutPrefix (s prefix : list byte) {struct prefix} : option (list byte) :=
  match prefix, s with
  | [], _ => Some s
  | p :: prefix', c :: s' => if Byte.eqb c p then CutPrefix s' prefix' else None
  | _ :: _, [] => None
  end.

Definition HasPrefix (s prefix : list byte) : bool :=
  match CutPrefix s prefix with Some _ => true | None => false end.

Definition HasSuffix (s suffix : list byte) : bool :=
  HasPrefix (rev s) (rev suffix).

(** [bytes.Cut(s, sep)] for a one-byte separator: the text before and
    after the first [sep], or [None] when [sep] does not occur. *)
Fixpoint Cut (s : list byte) (sep : byte) : option (list byte * list byte) :=
  match s with
  | [] => None
  | c :: s' =>
      if Byte.eqb c sep then Some ([], s')
      else match Cut s' sep with
           | Some (before, after) => Some (c :: before, after)
           | None => None
           end
  end.

(** [bytes.LastIndex(s, sep)]. *)
Fixpoint LastIndex (s sep : list byte) : option nat :=
  match s with
  | [] => if HasPrefix [] sep then Some O else None
  | _ :: s' =>
      match LastIndex s' sep with
      | Some i => Some (S i)
      | None => if HasPrefix s sep then Some O else None
      end
  end.

(** The lines of a text in which every line is terminated by [LF]; an
    unterminated tail is returned separately. *)
Fixpoint lines_from (cur : list byte) (s : list byte) : list (list byte) * list byte :=
  match s with
  | [] => ([], rev cur)
  | c :: s' =>
      if Byte.eqb c LF then
        let '(ls, tail) := lines_from [] s' in (rev cur :: ls, tail)
      else lines_from (c :: cur) s'
  end.

Definition lines (s : list byte) : list (list byte) * list byte := lines_from [] s.

(** [binary.BigEndian.PutUint32] and [binary.BigEndian.Uint32]. *)
Definition byte_of_Z (z : Z) : byte :=
  match Byte.of_N (Z.to_N (z mod 256)) with
  | Some b => b
  | None => x00
  end.

Definition Z_of_byte (b : byte) : Z := Z.of_N (Byte.to_N b).

Definition PutUint32 (v : Z) : list byte :=
  [byte_of_Z (Z.shiftr v 24); byte_of_Z (Z.shiftr v 16);
   byte_of_Z (Z.shiftr v 8); byte_of_Z v].

Definition Uint32 (b : list byte) : Z :=
  match b with
  | b0 :: b1 :: b2 :: b3 :: _ =>
      Z.lor (Z.lor (Z.lor (Z_of_byte b3) (Z.shiftl (Z_of_byte b2) 8))
                   (Z.shiftl (Z_of_byte b1) 16))
            (Z.shiftl (Z_of_byte b0) 24)
  | _ => 0
  end.

(** ** [encoding/base64], the standard padded encoding *)

Module base64.

Definition alphabet : list byte :=
  list_byte_of_string
    "ABCDEFGHIJKLMNOPQRSTUVWXYZabcdefghijklmnopqrstuvwxyz0123456789+/".

Definition pad : byte := x3d.

Definition enc (i : Z) : byte := nth (Z.to_nat i) alphabet x41.

Definition dec (c : byte) : option Z :=
  let v := Z_of_byte c in
  if (65 <=? v) && (v <=? 90) then Some (v - 65)
  else if (97 <=? v) && (v <=? 122) then Some (v - 71)
  else if (48 <=? v) && (v <=? 57) then Some (v + 4)
  else if v =? 43 then Some 62
  else if v =? 47 then Some 63
  else None.

Fixpoint EncodeToString (src : list byte) : list byte :=
  match src with
  | [] => []
  | [a] =>
      let x := Z_of_byte a in
      [enc (x / 4); enc (x mod 4 * 16); pad; pad]
  | [a; b] =>
      let x := Z_of_byte a in
      let y := Z_of_byte b in
      [enc (x / 4); enc (x mod 4 * 16 + y / 16); enc (y mod 16 * 4); pad]
  | a :: b :: c :: rest =>
      let x := Z_of_byte a in
      let y := Z_of_byte b in
      let z := Z_of_byte c in
      enc (x / 4) :: enc (x mod 4 * 16 + y / 16)
        :: enc (y mod 16 * 4 + z / 64) :: enc (z mod 64)
        :: EncodeToString rest
  end.

(** Decoding is strict about length and padding: every quantum has four
    characters, and padding may only close the last one. *)
Fixpoint DecodeString (s : list byte) : option (list byte) :=
  match s with
  | [] => Some []
  | c0 :: c1 :: c2 :: c3 :: rest =>
      match dec c0, dec c1 with
      | Some s0, Some s1 =>
          let b0 := byte_of_Z (s0 * 4 + s1 / 16) in
          if Byte.eqb c3 pad then
            match rest with
            | [] =>
                if Byte.eqb c2 pad then Some [b0]
                else match dec c2 with
                     | Some s2 => Some [b0; byte_of_Z (s1 mod 16 * 16 + s2 / 4)]
                     | None => None
                     end
            | _ :: _ => None
            end
          else
            match dec c2, dec c3, DecodeString rest with
            | Some s2, Some s3, Some out =>
                Some (b0 :: byte_of_Z (s1 mod 16 * 16 + s2 / 4)
                         :: byte_of_Z (s2 mod 4 * 64 + s3) :: out)
            | _, _, _ => None
            end
      | _, _ => None
      end
  | _ => None
  end.

End base64.

(** ** Package [golang.org/x/mod/sumdb/note]

    Modelled from the spec: package [note] is an external dependency
    whose sources are not part of the repository.  The model follows the
    signed-note wire format the spec describes: a text body, a blank
    line, and signature lines [— <key-name> <base64 signature>], where the
    first four bytes of a decoded signature are the key's hash prefix.
    Character checks are made on bytes: a byte above [0x7f] is taken as
    part of a well-formed multi-byte character. *)

Module note.

(** Interface [note.Signer]. *)
Record Signer : Type := {
  Signer_Name : string;
  Signer_KeyHash : Z;
  Signer_Sign : list byte -> result (list byte)
}.

(** Interface [note.Verifier]. *)
Record Verifier : Type := {
  Verifier_Name : string;
  Verifier_KeyHash : Z;
  Verifier_Verify : list byte -> list byte -> bool
}.

Record Signature : Type := {
  Sig_Name : string;
  Sig_Hash : Z;
  Sig_Base64 : list byte
}.

Record Note : Type := {
  Text : string;
  Sigs : list Signature;
  UnverifiedSigs : list Signature
}.

Definition errMalformedNote : error := errorString "malformed note".
Definition errInvalidSigner : error := errorString "invalid signer".

Definition UnverifiedNoteError : error := errorString "note has no verifiable signatures".

Definition InvalidSignatureError (name : string) : error :=
  errorString ("invalid signature for key " +:+ name).

(** The signature marker: an em dash (U+2014, three bytes) and a space. *)
Definition sigPrefix : list byte := [xe2; x80; x94; x20].
Definition sigSplit : list byte := [LF; LF].

(** A byte that is neither a plus sign nor white space (tab, line feed,
    vertical tab, form feed, carriage return, space). *)
Definition name_byte (b : byte) : bool :=
  negb (Byte.eqb b x2b || Byte.eqb b x20 || Byte.eqb b x09 || Byte.eqb b x0a
        || Byte.eqb b x0b || Byte.eqb b x0c || Byte.eqb b x0d).

Definition isValidName (name : string) : bool :=
  negb (String.eqb name "") && forallb name_byte (list_byte_of_string name).

(** A byte a note may contain: no control character but the line feed. *)
Definition text_byte (b : byte) : bool :=
  (32 <=? Z_of_byte b) || Byte.eqb b LF.

Definition sig_line (name : string) (b64 : list byte) : list byte :=
  sigPrefix ++ list_byte_of_string name ++ [SP] ++ b64 ++ [LF].

(** Signatures already on the note are kept unless the signer replaces
    them. *)
Definition keep_sigs (s : Signer) (old : list Signature) : list byte :=
  concat (map (fun sg =>
                 if String.eqb (Sig_Name sg) (Signer_Name s)
                    && (Sig_Hash sg =? Signer_KeyHash s)
                 then []
                 else sig_line (Sig_Name sg) (Sig_Base64 sg)) old).

(** [note.Sign(n, signer)] with one signer. *)
Definition Sign (n : Note) (s : Signer) : result (list byte) :=
  let text := list_byte_of_string (Text n) in
  if negb (HasSuffix text [LF]) then Err errMalformedNote
  else if negb (isValidName (Signer_Name s)) then Err errInvalidSigner
  else
    match Signer_Sign s text with
    | Err e => Err e
    | Ok sig =>
        let b64 := base64.EncodeToString (PutUint32 (Signer_KeyHash s) ++ sig) in
        Ok (text ++ [LF] ++ keep_sigs s (Sigs n ++ UnverifiedSigs n)
                 ++ sig_line (Signer_Name s) b64)
    end.

(** The state of the loop of [note.Open] over the signature lines. *)
Record open_state : Type := {
  numSig : nat;
  seen : bool;
  verified : list Signature;
  unverified : list Signature
}.

Definition open_line (known : Verifier) (text line : list byte) (st : open_state)
  : result open_state :=
  match CutPrefix line sigPrefix with
  | None => Err errMalformedNote
  | Some line =>
      let '(nameb, b64) :=
        match Cut line SP with
        | Some (a, b) => (a, b)
        | None => (line, [])
        end in
      let name := string_of_list_byte nameb in
      match base64.DecodeString b64 with
      | None => Err errMalformedNote
      | Some sig =>
          if negb (isValidName name) || bytes_eqb b64 [] || (length sig <? 5)%nat
          then Err errMalformedNote
          else if (100 <? S (numSig st))%nat then Err errMalformedNote
          else
            let hash := Uint32 (take 4 sig) in
            let sig := drop 4 sig in
            let this := {| Sig_Name := name; Sig_Hash := hash; Sig_Base64 := b64 |} in
            if String.eqb name (Verifier_Name known) && (hash =? Verifier_KeyHash known)
            then
              if seen st then
                Ok {| numSig := S (numSig st); seen := true;
                      verified := verified st; unverified := unverified st |}
              else if Verifier_Verify known text sig then
                Ok {| numSig := S (numSig st); seen := true;
                      verified := verified st ++ [this];
                      unverified := unverified st |}
              else Err (InvalidSignatureError name)
            else
              Ok {| numSig := S (numSig st); seen := seen st;
                    verified := verified st;
                    unverified := unverified st ++ [this] |}
      end
  end.

Fixpoint open_lines (known : Verifier) (text : list byte) (ls : list (list byte))
  (st : open_state) : result open_state :=
  match ls with
  | [] => Ok st
  | line :: ls' =>
      match open_line known text line st with
      | Err e => Err e
      | Ok st' => open_lines known text ls' st'
      end
  end.

(** [note.Open(msg, note.VerifierList(known))]. *)
Definition Open (msg : list byte) (known : Verifier) : result Note :=
  if negb (forallb text_byte msg) then Err errMalformedNote
  else
    match LastIndex msg sigSplit with
    | None => Err errMalformedNote
    | Some split =>
        let text := take (split + 1) msg in
        let sigs := drop (split + 2) msg in
        match lines sigs with
        | (_, _ :: _) | ([], _) => Err errMalformedNote
        | (ls, []) =>
            match open_lines known text ls
                    {| numSig := O; seen := false; verified := []; unverified := [] |} with
            | Err e => Err e
            | Ok st =>
                match verified st with
                | [] => Err UnverifiedNoteError
                | _ :: _ =>
                    Ok {| Text := string_of_list_byte text;
                          Sigs := verified st;
                          UnverifiedSigs := unverified st |}
                end
            end
        end
    end.

End note.

(** ** Package [github.com/transparency-dev/formats/log]

    Modelled from the spec: package [f_log] is an external dependency
    whose sources are not part of the repository.  A checkpoint body is
    the origin line, the size line in decimal and the hash line in
    base64; [ParseCheckpoint] opens the note with the log's verifier and
    checks the declared origin. *)

Module f_log.

Record Checkpoint : Type := {
  Origin : string;
  Size : Z;
  Hash : list byte
}.

(** [fmt.Sprintf("%s\n%d\n%s\n", c.Origin, c.Size, base64(c.Hash))]. *)
Definition Marshal (c : Checkpoint) : list byte :=
  list_byte_of_string (Origin c) ++ [LF]
    ++ FormatUint (Size c) ++ [LF]
    ++ base64.EncodeToString (Hash c) ++ [LF].

Definition Unmarshal (data : list byte) : result (Checkpoint * list byte) :=
  match Cut data LF with
  | None => Err (errorString "invalid checkpoint - too few newlines")
  | Some (l0, data1) =>
      match Cut data1 LF with
      | None => Err (errorString "invalid checkpoint - too few newlines")
      | Some (l1, data2) =>
          match Cut data2 LF with
          | None => Err (errorString "invalid checkpoint - too few newlines")
          | Some (l2, rest) =>
              let origin := string_of_list_byte l0 in
              if String.eqb origin "" then
                Err (errorString "invalid checkpoint - empty ecosystem")
              else
                match ParseUint l1 with
                | Err e => Err (Errorf_v "invalid checkpoint - size invalid: " e)
                | Ok size =>
                    match base64.DecodeString l2 with
                    | None => Err (errorString "invalid checkpoint - invalid hash")
                    | Some h =>
                        Ok ({| Origin := origin; Size := size; Hash := h |}, rest)
                    end
                end
          end
      end
  end.

Definition log_signature (v : note.Verifier) (s : note.Signature) : bool :=
  (note.Sig_Hash s =? note.Verifier_KeyHash v)
  && String.eqb (note.Sig_Name s) (note.Verifier_Name v).

(** [ParseCheckpoint(chkpt, origin, logVerifier)] with no other verifier. *)
Definition ParseCheckpoint (chkpt : list byte) (origin : string) (logVerifier : note.Verifier)
  : result (Checkpoint * list byte * note.Note) :=
  match note.Open chkpt logVerifier with
  | Err e => Err (Errorf_v "failed to verify signatures on checkpoint: " e)
  | Ok n =>
      match List.find (log_signature logVerifier) (note.Sigs n) with
      | None => Err (errorString "no log signature found on note")
      | Some _ =>
          match Unmarshal (list_byte_of_string (note.Text n)) with
          | Err e => Err (Errorf_v "failed to unmarshal checkpoint: " e)
          | Ok (cp, otherData) =>
              if negb (String.eqb (Origin cp) origin) then
                Err (errorString ("got Origin " +:+ Origin cp +:+ " but expected " +:+ origin))
              else Ok (cp, otherData, n)
          end
      end
  end.

End f_log.

(** ** Package [github.com/AlCutter/betty/storage/posix] and the file system

    Modelled from the spec: package [posix] belongs to the repository but
    its sources are not available; only its use in [main.go] is.  The
    spec calls it the persistence layer: [ReadCheckpoint] reads the raw
    checkpoint bytes and fails when there are none, [WriteCheckpoint]
    writes the signed bytes, overwriting any prior checkpoint.  [FS] is
    the state of the file system; [MkdirAll] is [os.MkdirAll]. *)

Module posix.

Class Store (FS : Type) : Type := {
  ReadCheckpoint : string -> FS -> result (list byte);
  WriteCheckpoint : string -> list byte -> FS -> FS * option error;
  MkdirAll : string -> FS -> FS * option error
}.

(** What the spec asks of the persistence layer: a checkpoint that was
    written is the one that is read back. *)
Class StoreLaws (FS : Type) `{Store FS} : Prop := {
  read_after_write :
    forall (path : string) (b : list byte) (fs fs' : FS),
      WriteCheckpoint path b fs = (fs', None) ->
      ReadCheckpoint path fs' = Ok b
}.

(** [posix.CurrentTreeFunc] and [posix.NewTreeFunc]: the Go functions
    return [(uint64, []byte, error)] and [error]. *)
Definition CurrentTreeFunc (FS : Type) : Type := FS -> Z * list byte * option error.
Definition NewTreeFunc (FS : Type) : Type := Z -> list byte -> FS -> FS * option error.

End posix.

(** A file system for concrete runs: the directories that exist and the
    checkpoint file of each log root. *)
Record Disk : Type := {
  dirs : gset string;
  checkpoints : gmap string (list byte)
}.

Definition Disk_empty : Disk := {| dirs := ∅; checkpoints := ∅ |}.

Definition ErrNotExist : error := errorString "file does not exist".

#[global] Instance Disk_Store : posix.Store Disk := {|
  posix.ReadCheckpoint path fs :=
    match checkpoints fs !! path with
    | Some b => Ok b
    | None =>
        Err (wrapError ("open " +:+ path +:+ "/checkpoint: no such file or directory")
               ErrNotExist)
    end;
  posix.WriteCheckpoint path b fs :=
    if bool_decide (path ∈ dirs fs) then
      ({| dirs := dirs fs; checkpoints := <[path := b]> (checkpoints fs) |}, None)
    else
      (fs, Some (wrapError ("open " +:+ path +:+ "/checkpoint: no such file or directory")
                   ErrNotExist));
  posix.MkdirAll path fs :=
    ({| dirs := {[path]} ∪ dirs fs; checkpoints := checkpoints fs |}, None)
|}.

(** ** main.go *)

(** [klog] output. *)
Inductive logLine : Type :=
| Infof (msg : string)
| Errorf (msg : string).

Section Main.

Context {FS : Type} `{posix.Store FS}.

(** [currentTree] (main.go, lines 131-143). *)
Definition currentTree (path : string) (verifier : note.Verifier) : posix.CurrentTreeFunc FS :=
  fun fs =>
    match posix.ReadCheckpoint path fs with
    | Err err => (0, [], Some (Errorf_v "ReadCheckpoint: " err))
    | Ok b =>
        match f_log.ParseCheckpoint b (note.Verifier_Name verifier) verifier with
        | Err err => (0, [], Some err)
        | Ok (cp, _, _) => (f_log.Size cp, f_log.Hash cp, None)
        end
    end.

(** [newTree] (main.go, lines 145-158). *)
Definition newTree (path : string) (signer : note.Signer) : posix.NewTreeFunc FS :=
  fun size hash fs =>
    let cp := {| f_log.Origin := note.Signer_Name signer;
                 f_log.Size := size;
                 f_log.Hash := hash |} in
    match note.Sign {| note.Text := string_of_list_byte (f_log.Marshal cp);
                       note.Sigs := []; note.UnverifiedSigs := [] |} signer with
    | Err err => (fs, Some err)
    | Ok n => posix.WriteCheckpoint path n fs
    end.

(** The start of [main] (lines 87-99), after the keys have been parsed:
    either the process exits through [klog.Exitf], or it goes on to
    serve with the file system it has set up. *)
Inductive startup_result : Type :=
| Exited (msg : string)
| Serving (fs : FS).

Definition startup (path : string) (sKey : note.Signer) (vKey : note.Verifier) (fs : FS)
  : list logLine * startup_result :=
  let ct := currentTree path vKey in
  let nt := newTree path sKey in
  match posix.MkdirAll path fs with
  | (_, Some err) =>
      ([], Exited ("failed to make directory structure: " +:+ Error err))
  | (fs, None) =>
      match ct fs with
      | (_, _, Some err) =>
          let log := [Infof ("ct: " +:+ Error err)] in
          match nt 0 (list_byte_of_string "Empty") fs with
          | (_, Some err) => (log, Exited ("Failed to initialise log: " +:+ Error err))
          | (fs, None) => (log, Serving fs)
          end
      | (_, _, None) => ([], Serving fs)
      end
  end.

(** [printStats] (lines 160-180).  Each turn of the loop takes one event
    of the [select]: the context is done, or the timer fired, and then
    the loop sees the file system and the latency aggregator as they are
    at that moment. *)
Inductive event : Type :=
| CtxDone
| After (fs : FS) (l : latency).

Definition stats_line (size added : Z) (l : latency) : string :=
  "CP size " +:+ string_of_list_byte (FormatUint size)
    +:+ " (+" +:+ string_of_list_byte (FormatUint added)
    +:+ "); Latency: " +:+ latency_String l.

(** One firing of the timer: the lines logged and the new [lastSize]. *)
Definition printStats_tick (s : posix.CurrentTreeFunc FS) (lastSize : Z) (fs : FS) (l : latency)
  : list logLine * Z :=
  match s fs with
  | (_, _, Some err) =>
      ([Errorf ("Failed to get checkpoint: " +:+ Error err)], lastSize)
  | (size, _, None) =>
      let out :=
        if lastSize >? 0 then
          let added := wrapU64 (size - lastSize) in
          [Infof (stats_line size added l)]
        else [] in
      (out, size)
  end.

Fixpoint printStats_loop (s : posix.CurrentTreeFunc FS) (lastSize : Z) (evs : list event)
  : list logLine * Z :=
  match evs with
  | [] => ([], lastSize)
  | CtxDone :: _ => ([], lastSize)
  | After fs l :: evs' =>
      let '(out, lastSize') := printStats_tick s lastSize fs l in
      let '(outs, final) := printStats_loop s lastSize' evs' in
      (out ++ outs, final)
  end.

(** [var lastSize uint64] starts at zero. *)
Definition printStats (s : posix.CurrentTreeFunc FS) (evs : list event) : list logLine * Z :=
  printStats_loop s 0 evs.

End Main.

(** ** The [POST /add] handler (main.go, lines 104-121) *)

(** Interface [Storage]. *)
Class Storage (S : Type) : Type := {
  Sequence : list byte -> S -> S * result Z
}.

(** An [http.ResponseWriter]: the status line once it has been sent, and
    the body written so far. *)
Record ResponseWriter : Type := {
  status : option Z;
  body : list byte
}.

Definition ResponseWriter_new : ResponseWriter := {| status := None; body := [] |}.

Definition StatusOK : Z := 200.
Definition StatusInternalServerError : Z := 500.

Definition WriteHeader (code : Z) (w : ResponseWriter) : ResponseWriter :=
  match status w with
  | Some _ => w
  | None => {| status := Some code; body := body w |}
  end.

(** The first [Write] sends the header with status 200 if none was sent. *)
Definition Write (b : list byte) (w : ResponseWriter) : ResponseWriter :=
  let w := WriteHeader StatusOK w in
  {| status := status w; body := body w ++ b |}.

(** The status the client sees: a handler that returns without writing
    anything answers 200. *)
Definition response_status (w : ResponseWriter) : Z :=
  match status w with
  | Some code => code
  | None => StatusOK
  end.

(** A request, as far as the handler looks at it: what [io.ReadAll(r.Body)]
    returns. *)
Record Request : Type := {
  ReadAll_Body : result (list byte)
}.

Section Handler.

Context {S : Type} `{Storage S}.

(** [elapsed] is the value of [time.Since(n)] when the deferred call
    runs, at the return of the handler.  Closing the request body has no
    effect on what the handler answers and is left out. *)
Definition addHandler (elapsed : Duration) (r : Request)
  (w : ResponseWriter) (s : S) (l : latency) : ResponseWriter * S * latency :=
  let '(w, s) :=
    match ReadAll_Body r with
    | Err _ => (WriteHeader StatusInternalServerError w, s)
    | Ok b =>
        match Sequence b s with
        | (s, Err err) =>
            let w := WriteHeader StatusInternalServerError w in
            (Write (list_byte_of_string ("Failed to sequence entry: " +:+ Error err)) w, s)
        | (s, Ok idx) =>
            (Write (FormatUint idx ++ [LF]) w, s)
        end
    end in
  (w, s, latency_Add l elapsed).

End Handler.

(** ** Predicates and values the statements use *)

(** A byte above the space: it is no control character, no line feed and
    no space. *)
Definition graphic (b : byte) : bool := 32 <? Z_of_byte b.

(** The signature line without its line feed. *)
Definition sig_text (name : string) (b64 : list byte) : list byte :=
  note.sigPrefix ++ list_byte_of_string name ++ [SP] ++ b64.

(** A signer as package [note] makes them: the key hash is a [uint32],
    the name holds no control character, a signature is not empty. *)
Definition signer_ok (s : note.Signer) : Prop :=
  0 <= note.Signer_KeyHash s < 2 ^ 32
  /\ forallb note.text_byte (list_byte_of_string (note.Signer_Name s)) = true
  /\ forall msg sig, note.Signer_Sign s msg = Ok sig -> sig <> [].

(** The verifier of a signer: same name, same key hash, and it accepts
    what the signer signs. *)
Definition matching (s : note.Signer) (v : note.Verifier) : Prop :=
  note.Verifier_Name v = note.Signer_Name s
  /\ note.Verifier_KeyHash v = note.Signer_KeyHash s
  /\ forall msg sig, note.Signer_Sign s msg = Ok sig -> note.Verifier_Verify v msg sig = true.

(** A verifier that is not the signer's: another name, another key hash,
    or a key that rejects the signer's signatures. *)
Definition mismatched (s : note.Signer) (v : note.Verifier) : Prop :=
  note.Verifier_Name v <> note.Signer_Name s
  \/ note.Verifier_KeyHash v <> note.Signer_KeyHash s
  \/ forall msg sig, note.Signer_Sign s msg = Ok sig -> note.Verifier_Verify v msg sig = false.

(** The checkpoint [newTree] builds. *)
Definition checkpoint_of (s : note.Signer) (size : Z) (hash : list byte) : f_log.Checkpoint :=
  {| f_log.Origin := note.Signer_Name s; f_log.Size := size; f_log.Hash := hash |}.

Definition note_of (text : list byte) : note.Note :=
  {| note.Text := string_of_list_byte text; note.Sigs := []; note.UnverifiedSigs := [] |}.

(** A stand-in for a signature scheme: the signature of a message under
    the key byte [key] is [key] followed by the message reversed. *)
Definition test_signer (name : string) (hash : Z) (key : byte) : note.Signer :=
  {| note.Signer_Name := name;
     note.Signer_KeyHash := hash;
     note.Signer_Sign := fun msg => Ok (key :: rev msg) |}.

Definition test_verifier (name : string) (hash : Z) (key : byte) : note.Verifier :=
  {| note.Verifier_Name := name;
     note.Verifier_KeyHash := hash;
     note.Verifier_Verify := fun msg sig => bytes_eqb sig (key :: rev msg) |}.

(** A signer whose key is unusable: signing fails. *)
Definition broken_signer (name : string) (hash : Z) : note.Signer :=
  {| note.Signer_Name := name;
     note.Signer_KeyHash := hash;
     note.Signer_Sign := fun _ => Err (errorString "signing key unavailable") |}.

Definition log_root : string := "/tmp/log".
Definition betty_signer : note.Signer := test_signer "Test-Betty" 3750516746 x41.
Definition betty_verifier : note.Verifier := test_verifier "Test-Betty" 3750516746 x41.

(** The disk once the log root exists. *)
Definition disk_ready : Disk := {| dirs := {[log_root]}; checkpoints := ∅ |}.

Definition with_LF (l : list byte) : list byte := l ++ [LF].

(** A signature that [note.Open] has verified: it stands on [line], is
    named and hashed as the verifier, and the verifier accepts it over
    the text. *)
Definition verified_sig (known : note.Verifier) (text line : list byte) (sg : note.Signature)
  : Prop :=
  note.Sig_Name sg = note.Verifier_Name known
  /\ note.Sig_Hash sg = note.Verifier_KeyHash known
  /\ line = sig_text (note.Sig_Name sg) (note.Sig_Base64 sg)
  /\ exists raw,
       base64.DecodeString (note.Sig_Base64 sg) = Some raw
       /\ Uint32 (take 4 raw) = note.Verifier_KeyHash known
       /\ note.Verifier_Verify known text (drop 4 raw) = true.

(** [msg] is a note with body [text] that carries, among its signature
    lines, a signature of [v] that [v] accepts over [text]. *)
Definition signed_by (v : note.Verifier) (msg text : list byte) : Prop :=
  exists pre post b64 raw,
    msg = text ++ [LF] ++ pre ++ note.sig_line (note.Verifier_Name v) b64 ++ post
    /\ base64.DecodeString b64 = Some raw
    /\ Uint32 (take 4 raw) = note.Verifier_KeyHash v
    /\ note.Verifier_Verify v text (drop 4 raw) = true.

Definition Empty : list byte := list_byte_of_string "Empty".

(** A storage engine for concrete runs: entries are appended in memory
    and indexed by position, unless the engine is out of order. *)
Record MemLog : Type := {
  entries : list (list byte);
  out_of_order : bool
}.

#[global] Instance MemLog_Storage : Storage MemLog := {|
  Sequence b s :=
    if out_of_order s then (s, Err (errorString "storage unavailable"))
    else ({| entries := entries s ++ [b]; out_of_order := false |},
          Ok (Z.of_nat (length (entries s))))
|}.

(** A run for the reporter: no checkpoint yet, then checkpoints of size
    0, 5 and 7. *)
Definition disk_with (size : Z) : Disk :=
  fst (newTree log_root betty_signer size Empty disk_ready).

Definition stats_run : list (@event Disk) :=
  [After Disk_empty latency_zero; After (disk_with 0) latency_zero;
   After (disk_with 5) latency_zero].

(** The timer fired and the accessor returned an error. *)
Definition tick_failed {FS : Type} (s : posix.CurrentTreeFunc FS) (e : @event FS) : Prop :=
  exists fs l size hash err, e = After fs l /\ s fs = (size, hash, Some err).

Definition is_tick {FS : Type} (e : @event FS) : Prop := e <> CtxDone.

(** The aggregator after [Add] of each sample of [ds], in order, on a
    fresh aggregator. *)
Definition samples (ds : list Duration) : latency :=
  fold_left latency_Add ds latency_zero.

Definition sum_durations (ds : list Duration) : Z := fold_right Z.add 0 ds.

(** The mean [String] renders. *)
Definition latency_mean (l : latency) : Duration := wrapI64 (Z.quot (total l) (n l)).

(** What [s] signs for the checkpoint [cp], as [newTree] would publish
    it; empty when signing fails. *)
Definition signed_bytes (s : note.Signer) (cp : f_log.Checkpoint) : list byte :=
  match note.Sign (note_of (f_log.Marshal cp)) s with
  | Ok msg => msg
  | Err _ => []
  end.

(** A disk whose log root holds the checkpoint [msg]. *)
Definition disk_holding (msg : list byte) : Disk :=
  {| dirs := {[log_root]}; checkpoints := {[log_root := msg]} |}.

(** Another key under the same name and key hash. *)
Definition other_signer : note.Signer := test_signer "Test-Betty" 3750516746 x42.

(** A name that [note.isValidName] lets through although it holds a
    control character: "a", the byte 1, "b". *)
Definition control_name : string := String "a" (String "001" (String "b" EmptyString)).

Definition control_signer : note.Signer := test_signer control_name 3750516746 x41.
Definition control_verifier : note.Verifier := test_verifier control_name 3750516746 x41.

(** * Properties *)

(** ** Machine integers and bytes *)

Lemma Z_of_byte_range (b : byte) : 0 <= Z_of_byte b < 256.
Proof.
  unfold Z_of_byte. pose proof (Byte.to_N_bounded b). lia.
Qed.

Lemma byte_of_Z_of_byte (b : byte) : byte_of_Z (Z_of_byte b) = b.
Proof.
  unfold byte_of_Z. pose proof (Z_of_byte_range b) as Hb.
  rewrite Z.mod_small by lia.
  unfold Z_of_byte. rewrite N2Z.id, Byte.of_to_N. reflexivity.
Qed.

Lemma Z_of_byte_of_Z (z : Z) : 0 <= z < 256 -> Z_of_byte (byte_of_Z z) = z.
Proof.
  intros Hz. unfold byte_of_Z, Z_of_byte.
  rewrite Z.mod_small by lia.
  destruct (Byte.of_N (Z.to_N z)) as [b|] eqn:E.
  - apply Byte.to_of_N in E. rewrite E. lia.
  - apply Byte.of_N_None_iff in E. lia.
Qed.

Lemma byte_eqb_refl (b : byte) : Byte.eqb b b = true.
Proof. apply Byte.byte_dec_lb. reflexivity. Qed.

Lemma byte_eqb_neq (a b : byte) : a <> b -> Byte.eqb a b = false.
Proof.
  intros Hab. destruct (Byte.eqb a b) eqn:E; [|reflexivity].
  apply Byte.byte_dec_bl in E. contradiction.
Qed.

Lemma byte_eqb_eq (a b : byte) : Byte.eqb a b = true <-> a = b.
Proof.
  split; [apply Byte.byte_dec_bl | intros ->; apply byte_eqb_refl].
Qed.

Lemma bytes_eqb_eq (a b : list byte) : bytes_eqb a b = true <-> a = b.
Proof. unfold bytes_eqb. apply bool_decide_eq_true. Qed.

Lemma string_eqb_neq (a b : string) : a <> b -> String.eqb a b = false.
Proof. intros Hab. apply String.eqb_neq. exact Hab. Qed.

Lemma graphic_text_byte (b : byte) : graphic b = true -> note.text_byte b = true.
Proof.
  unfold graphic, note.text_byte. intros Hg.
  apply Z.ltb_lt in Hg. apply orb_true_iff. left. apply Z.leb_le. lia.
Qed.

Lemma graphic_not (b c : byte) : graphic b = true -> Z_of_byte c <= 32 -> b <> c.
Proof.
  unfold graphic. intros Hg Hc ->. apply Z.ltb_lt in Hg. lia.
Qed.

Lemma graphic_not_LF (b : byte) : graphic b = true -> b <> LF.
Proof. intros Hg. apply (graphic_not _ _ Hg). vm_compute. discriminate. Qed.

Lemma graphic_not_SP (b : byte) : graphic b = true -> b <> SP.
Proof. intros Hg. apply (graphic_not _ _ Hg). vm_compute. discriminate. Qed.

(** ** Decimal numbers *)

Lemma uint_of_bytes_of_uint (d : Decimal.uint) :
  uint_of_bytes (bytes_of_uint d) = Some d.
Proof.
  induction d; simpl; rewrite ?IHd; reflexivity.
Qed.

Lemma bytes_of_uint_graphic (d : Decimal.uint) :
  Forall (fun b => graphic b = true) (bytes_of_uint d).
Proof.
  induction d; simpl; constructor; auto.
Qed.

Lemma N_to_uint_not_Nil (k : N) : N.to_uint k <> Decimal.Nil.
Proof.
  destruct k as [|p]; simpl; [discriminate|].
  apply DecimalPos.Unsigned.to_uint_nonnil.
Qed.

Lemma FormatUint_not_nil (z : Z) : FormatUint z <> [].
Proof.
  unfold FormatUint. pose proof (N_to_uint_not_Nil (Z.to_N z)) as Hn.
  destruct (N.to_uint (Z.to_N z)); simpl; congruence.
Qed.

Lemma FormatUint_graphic (z : Z) : Forall (fun b => graphic b = true) (FormatUint z).
Proof. apply bytes_of_uint_graphic. Qed.

Lemma ParseUint_FormatUint (z : Z) : isU64 z -> ParseUint (FormatUint z) = Ok z.
Proof.
  intros [Hlo Hhi]. unfold ParseUint.
  pose proof (FormatUint_not_nil z) as Hnil.
  destruct (FormatUint z) as [|b l] eqn:E; [congruence|].
  rewrite <- E. unfold FormatUint.
  rewrite uint_of_bytes_of_uint, DecimalN.Unsigned.of_to, Z2N.id by lia.
  destruct (z <? 2 ^ 64) eqn:Hlt; [reflexivity|].
  apply Z.ltb_ge in Hlt. lia.
Qed.

(** ** Base64 *)

Lemma base64_dec_enc (i : Z) : 0 <= i < 64 -> base64.dec (base64.enc i) = Some i.
Proof.
  intros Hi.
  assert (Hall : forallb (fun k => bool_decide
            (base64.dec (base64.enc (Z.of_nat k)) = Some (Z.of_nat k))) (seq 0 64) = true)
    by (vm_compute; reflexivity).
  rewrite forallb_forall in Hall.
  specialize (Hall (Z.to_nat i)).
  rewrite Z2Nat.id in Hall by lia.
  eapply bool_decide_eq_true_1. apply Hall.
  apply in_seq. lia.
Qed.

Lemma base64_alphabet_graphic : Forall (fun b => graphic b = true) base64.alphabet.
Proof.
  apply Forall_forall. intros b Hb.
  assert (Hall : forallb graphic base64.alphabet = true) by (vm_compute; reflexivity).
  rewrite forallb_forall in Hall. apply Hall. apply list_elem_of_In. exact Hb.
Qed.

Lemma base64_enc_graphic (i : Z) : graphic (base64.enc i) = true.
Proof.
  unfold base64.enc.
  destruct (nth_in_or_default (Z.to_nat i) base64.alphabet x41) as [Hin | ->].
  - pose proof base64_alphabet_graphic as Hall.
    rewrite Forall_forall in Hall. apply Hall. apply list_elem_of_In. exact Hin.
  - vm_compute. reflexivity.
Qed.

Lemma base64_enc_not_pad (i : Z) : 0 <= i < 64 -> Byte.eqb (base64.enc i) base64.pad = false.
Proof.
  intros Hi. apply byte_eqb_neq. intros Heq.
  pose proof (base64_dec_enc i Hi) as Hd. rewrite Heq in Hd.
  vm_compute in Hd. discriminate.
Qed.

Lemma base64_EncodeToString_graphic (src : list byte) :
  Forall (fun b => graphic b = true) (base64.EncodeToString src).
Proof.
  assert (Hpad : graphic base64.pad = true) by (vm_compute; reflexivity).
  assert (H3 : forall l,
             Forall (fun b => graphic b = true) (base64.EncodeToString l)
             /\ (forall a, Forall (fun b => graphic b = true) (base64.EncodeToString (a :: l)))
             /\ (forall a b, Forall (fun b => graphic b = true)
                               (base64.EncodeToString (a :: b :: l)))).
  { induction l as [|c l (IH0 & IH1 & IH2)].
    - repeat split; intros; simpl; repeat constructor; auto using base64_enc_graphic.
    - repeat split; intros; auto.
      simpl. repeat (constructor; [apply base64_enc_graphic|]). exact IH0. }
  apply H3.
Qed.

Lemma base64_EncodeToString_not_nil (src : list byte) :
  src <> [] -> base64.EncodeToString src <> [].
Proof.
  destruct src as [|a [|b [|c rest]]]; simpl; congruence.
Qed.

(** The three bytes of a quantum are recovered from its four sextets. *)
Lemma base64_quantum (x y z : Z) :
  0 <= x < 256 -> 0 <= y < 256 -> 0 <= z < 256 ->
  (0 <= x / 4 < 64 /\ 0 <= x mod 4 * 16 + y / 16 < 64
   /\ 0 <= y mod 16 * 4 + z / 64 < 64 /\ 0 <= z mod 64 < 64)
  /\ x / 4 * 4 + (x mod 4 * 16 + y / 16) / 16 = x
  /\ (x mod 4 * 16 + y / 16) mod 16 * 16 + (y mod 16 * 4 + z / 64) / 4 = y
  /\ (y mod 16 * 4 + z / 64) mod 4 * 64 + z mod 64 = z.
Proof.
  intros Hx Hy Hz.
  repeat split; Z.div_mod_to_equations; lia.
Qed.

Lemma base64_DecodeString_EncodeToString (src : list byte) :
  base64.DecodeString (base64.EncodeToString src) = Some src.
Proof.
  assert (H3 : forall l,
             base64.DecodeString (base64.EncodeToString l) = Some l
             /\ (forall a, base64.DecodeString (base64.EncodeToString (a :: l)) = Some (a :: l))
             /\ (forall a b, base64.DecodeString (base64.EncodeToString (a :: b :: l))
                             = Some (a :: b :: l))).
  { induction l as [|c l (IH0 & IH1 & IH2)].
    - split; [reflexivity|]. split.
      + intros a. pose proof (Z_of_byte_range a) as Ha.
        destruct (base64_quantum (Z_of_byte a) 0 0 Ha) as ((R0 & R1 & _ & _) & E0 & _ & _);
          [lia | lia |].
        change (0 / 16) with 0 in *. rewrite Z.add_0_r in *.
        cbn [base64.EncodeToString base64.DecodeString].
        rewrite (base64_dec_enc _ R0), (base64_dec_enc _ R1).
        rewrite !byte_eqb_refl, E0, byte_of_Z_of_byte. reflexivity.
      + intros a b. pose proof (Z_of_byte_range a) as Ha. pose proof (Z_of_byte_range b) as Hb.
        destruct (base64_quantum (Z_of_byte a) (Z_of_byte b) 0 Ha Hb)
          as ((R0 & R1 & R2 & _) & E0 & E1 & _); [lia |].
        change (0 / 64) with 0 in *. rewrite Z.add_0_r in *.
        cbn [base64.EncodeToString base64.DecodeString].
        rewrite (base64_dec_enc _ R0), (base64_dec_enc _ R1), (base64_dec_enc _ R2).
        rewrite byte_eqb_refl, (base64_enc_not_pad _ R2), E0, E1, !byte_of_Z_of_byte.
        reflexivity.
    - split; [apply IH1|]. split; [intros a; apply IH2|].
      intros a b.
      pose proof (Z_of_byte_range a) as Ha. pose proof (Z_of_byte_range b) as Hb.
      pose proof (Z_of_byte_range c) as Hc.
      destruct (base64_quantum _ _ _ Ha Hb Hc) as ((R0 & R1 & R2 & R3) & E0 & E1 & E2).
      cbn [base64.EncodeToString base64.DecodeString].
      rewrite (base64_dec_enc _ R0), (base64_dec_enc _ R1), (base64_dec_enc _ R2),
        (base64_dec_enc _ R3), (base64_enc_not_pad _ R3), IH0, E0, E1, E2,
        !byte_of_Z_of_byte.
      reflexivity. }
  apply H3.
Qed.

(** ** Byte strings *)

Lemma CutPrefix_app (p s : list byte) : CutPrefix (p ++ s) p = Some s.
Proof.
  induction p as [|c p IH]; simpl; [reflexivity|].
  rewrite byte_eqb_refl. exact IH.
Qed.

Lemma HasSuffix_LF (t : list byte) : HasSuffix (t ++ [LF]) [LF] = true.
Proof.
  unfold HasSuffix. rewrite rev_app_distr. reflexivity.
Qed.

Lemma HasSuffix_LF_inv (text : list byte) :
  HasSuffix text [LF] = true -> exists t, text = t ++ [LF].
Proof.
  unfold HasSuffix, HasPrefix. intros Hs.
  destruct (rev text) as [|c r] eqn:E; simpl in Hs; [discriminate|].
  destruct (Byte.eqb c LF) eqn:Hc; [|discriminate].
  apply byte_eqb_eq in Hc. subst c.
  exists (rev r). rewrite <- (rev_involutive text), E. reflexivity.
Qed.

Lemma Cut_app (a b : list byte) (sep : byte) :
  Forall (fun c => c <> sep) a -> Cut (a ++ sep :: b) sep = Some (a, b).
Proof.
  induction 1 as [|c a Hc _ IH]; simpl.
  - rewrite byte_eqb_refl. reflexivity.
  - rewrite (byte_eqb_neq _ _ Hc), IH. reflexivity.
Qed.

Lemma LastIndex_app (a s sep : list byte) (i : nat) :
  LastIndex s sep = Some i -> LastIndex (a ++ s) sep = Some (length a + i)%nat.
Proof.
  intros Hs. induction a as [|c a IH]; simpl; [exact Hs|].
  rewrite IH. reflexivity.
Qed.

Lemma LastIndex_line (r : list byte) :
  Forall (fun c => c <> LF) r -> LastIndex (r ++ [LF]) note.sigSplit = None.
Proof.
  induction 1 as [|c r Hc _ IH]; [reflexivity|].
  cbn [app LastIndex]. rewrite IH.
  unfold HasPrefix, note.sigSplit. cbn [CutPrefix].
  rewrite (byte_eqb_neq _ _ Hc). reflexivity.
Qed.

(** In a body that ends its last line, followed by a blank line and one
    more line, the last blank line is the one after the body. *)
Lemma LastIndex_signed (t r : list byte) :
  r <> [] -> Forall (fun c => c <> LF) r ->
  LastIndex ((t ++ [LF]) ++ [LF] ++ r ++ [LF]) note.sigSplit = Some (length t).
Proof.
  intros Hr Hall.
  rewrite <- app_assoc.
  replace (length t) with (length t + 0)%nat by lia.
  apply LastIndex_app.
  destruct r as [|c r]; [congruence|].
  apply Forall_cons in Hall as [Hc Hall].
  pose proof (LastIndex_line r Hall) as Hnone.
  cbn [app LastIndex]. cbn [app] in Hnone. rewrite Hnone.
  unfold HasPrefix, note.sigSplit. cbn [CutPrefix].
  rewrite (byte_eqb_neq _ _ Hc). reflexivity.
Qed.

Lemma lines_from_line (cur r : list byte) :
  Forall (fun c => c <> LF) r ->
  lines_from cur (r ++ [LF]) = ([rev cur ++ r], []).
Proof.
  intros Hall. revert cur.
  induction Hall as [|c r Hc _ IH]; intros cur; simpl.
  - rewrite app_nil_r. reflexivity.
  - rewrite (byte_eqb_neq _ _ Hc), IH. simpl. rewrite <- app_assoc. reflexivity.
Qed.

Lemma lines_line (r : list byte) :
  Forall (fun c => c <> LF) r -> lines (r ++ [LF]) = ([r], []).
Proof. intros Hall. apply (lines_from_line [] r Hall). Qed.

(** ** [binary.BigEndian] *)

Lemma Z_of_byte_of_Z_mod (z : Z) : Z_of_byte (byte_of_Z z) = z mod 2 ^ 8.
Proof.
  change (2 ^ 8) with 256.
  pose proof (Z.mod_pos_bound z 256 ltac:(lia)) as Hm.
  unfold byte_of_Z.
  destruct (Byte.of_N (Z.to_N (z mod 256))) as [b|] eqn:E.
  - apply Byte.to_of_N in E. unfold Z_of_byte. rewrite E. lia.
  - apply Byte.of_N_None_iff in E. lia.
Qed.

Lemma testbit_low_byte (z m : Z) :
  Z.testbit (z mod 2 ^ 8) m = (0 <=? m) && (m <? 8) && Z.testbit z m.
Proof.
  destruct (Z.leb_spec 0 m) as [Hm|Hm]; simpl.
  - destruct (Z.ltb_spec m 8) as [Hlt|Hge]; simpl.
    + apply Z.mod_pow2_bits_low. lia.
    + apply Z.mod_pow2_bits_high. lia.
  - apply Z.testbit_neg_r. lia.
Qed.

Lemma testbit_byte_lane (v k j : Z) :
  0 <= j ->
  Z.testbit (Z.shiftr v j mod 2 ^ 8) (k - j)
  = (j <=? k) && (k <? j + 8) && Z.testbit v k.
Proof.
  intros Hj. rewrite testbit_low_byte.
  destruct (Z.leb_spec 0 (k - j)) as [Hlo|Hlo];
    destruct (Z.leb_spec j k) as [Hjk|Hjk]; try lia; cbn [andb].
  rewrite Z.shiftr_spec by lia.
  replace (k - j + j) with k by lia.
  destruct (Z.ltb_spec (k - j) 8), (Z.ltb_spec k (j + 8)); try lia; reflexivity.
Qed.

Lemma Uint32_PutUint32 (v : Z) (rest : list byte) :
  0 <= v < 2 ^ 32 -> Uint32 (PutUint32 v ++ rest) = v.
Proof.
  intros Hv. unfold PutUint32. cbn [app Uint32].
  rewrite !Z_of_byte_of_Z_mod.
  apply Z.bits_inj'. intros k Hk.
  rewrite !Z.lor_spec, !Z.shiftl_spec by lia.
  rewrite (testbit_byte_lane v k 8), (testbit_byte_lane v k 16),
    (testbit_byte_lane v k 24) by lia.
  rewrite testbit_low_byte.
  destruct (Z.lt_ge_cases k 32) as [Hlt|Hge].
  - destruct (Z.leb_spec 0 k), (Z.ltb_spec k 8), (Z.leb_spec 8 k), (Z.ltb_spec k (8 + 8)),
      (Z.leb_spec 16 k), (Z.ltb_spec k (16 + 8)), (Z.leb_spec 24 k), (Z.ltb_spec k (24 + 8));
      try lia; destruct (Z.testbit v k); reflexivity.
  - assert (Hhigh : Z.testbit v k = false).
    { rewrite <- (Z.mod_small v (2 ^ 32)) by lia.
      apply Z.mod_pow2_bits_high. lia. }
    rewrite Hhigh, !andb_false_r. reflexivity.
Qed.

Lemma drop_PutUint32 (v : Z) (rest : list byte) : drop 4 (PutUint32 v ++ rest) = rest.
Proof. reflexivity. Qed.

Lemma take_PutUint32 (v : Z) (rest : list byte) : take 4 (PutUint32 v ++ rest) = PutUint32 v.
Proof. reflexivity. Qed.

(** ** Signed notes *)

Lemma forallb_Forall_true {A : Type} (f : A -> bool) (l : list A) :
  forallb f l = true <-> Forall (fun x => f x = true) l.
Proof.
  rewrite forallb_forall, Forall_forall.
  split; intros Hall x Hx; apply Hall; apply list_elem_of_In; exact Hx.
Qed.

Lemma name_byte_not_SP (b : byte) : note.name_byte b = true -> b <> SP.
Proof. intros Hb ->. vm_compute in Hb. discriminate. Qed.

Lemma name_byte_not_LF (b : byte) : note.name_byte b = true -> b <> LF.
Proof. intros Hb ->. vm_compute in Hb. discriminate. Qed.

Lemma isValidName_inv (name : string) :
  note.isValidName name = true ->
  name <> ""%string
  /\ Forall (fun b => b <> SP) (list_byte_of_string name)
  /\ Forall (fun b => b <> LF) (list_byte_of_string name).
Proof.
  unfold note.isValidName. intros Hv.
  apply andb_true_iff in Hv as [Hne Hall].
  apply negb_true_iff, String.eqb_neq in Hne.
  apply forallb_Forall_true in Hall.
  repeat split; [exact Hne | |];
    eapply Forall_impl; eauto using name_byte_not_SP, name_byte_not_LF.
Qed.

Lemma graphic_Forall_text (l : list byte) :
  Forall (fun b => graphic b = true) l -> forallb note.text_byte l = true.
Proof.
  intros Hall. apply forallb_Forall_true.
  eapply Forall_impl; eauto using graphic_text_byte.
Qed.

Lemma graphic_Forall_not_LF (l : list byte) :
  Forall (fun b => graphic b = true) l -> Forall (fun b => b <> LF) l.
Proof. intros Hall. eapply Forall_impl; eauto using graphic_not_LF. Qed.

Lemma sig_line_text (name : string) (b64 : list byte) :
  note.sig_line name b64 = sig_text name b64 ++ [LF].
Proof.
  unfold note.sig_line, sig_text. rewrite <- !app_assoc. reflexivity.
Qed.

Lemma sig_text_not_LF (name : string) (raw : list byte) :
  note.isValidName name = true ->
  Forall (fun b => b <> LF) (sig_text name (base64.EncodeToString raw)).
Proof.
  intros Hv. apply isValidName_inv in Hv as (_ & _ & Hlf).
  unfold sig_text.
  apply Forall_app_2.
  { unfold note.sigPrefix. repeat (constructor; [discriminate|]). constructor. }
  apply Forall_app_2; [exact Hlf|].
  apply Forall_app_2.
  { repeat (constructor; [discriminate|]). constructor. }
  apply graphic_Forall_not_LF, base64_EncodeToString_graphic.
Qed.

Lemma sig_line_text_byte (name : string) (raw : list byte) :
  forallb note.text_byte (list_byte_of_string name) = true ->
  forallb note.text_byte (note.sig_line name (base64.EncodeToString raw)) = true.
Proof.
  intros Hn. unfold note.sig_line.
  rewrite !forallb_app, Hn, (graphic_Forall_text _ (base64_EncodeToString_graphic raw)).
  reflexivity.
Qed.

(** What one signature line contributes when it is the only one. *)
Lemma open_line_signed (known : note.Verifier) (text : list byte)
  (name : string) (raw : list byte) :
  note.isValidName name = true ->
  (5 <= length raw)%nat ->
  note.open_line known text (sig_text name (base64.EncodeToString raw))
    {| note.numSig := O; note.seen := false; note.verified := []; note.unverified := [] |}
  = let this := {| note.Sig_Name := name; note.Sig_Hash := Uint32 (take 4 raw);
                   note.Sig_Base64 := base64.EncodeToString raw |} in
    if String.eqb name (note.Verifier_Name known)
       && (Uint32 (take 4 raw) =? note.Verifier_KeyHash known)
    then
      if note.Verifier_Verify known text (drop 4 raw)
      then Ok {| note.numSig := 1; note.seen := true; note.verified := [this];
                 note.unverified := [] |}
      else Err (note.InvalidSignatureError name)
    else Ok {| note.numSig := 1; note.seen := false; note.verified := [];
               note.unverified := [this] |}.
Proof.
  intros Hv Hlen.
  pose proof (isValidName_inv name Hv) as (_ & Hsp & _).
  unfold note.open_line, sig_text.
  rewrite CutPrefix_app.
  change (list_byte_of_string name ++ [SP] ++ base64.EncodeToString raw)
    with (list_byte_of_string name ++ SP :: base64.EncodeToString raw).
  rewrite (Cut_app _ _ _ Hsp), string_of_list_byte_of_string.
  rewrite base64_DecodeString_EncodeToString, Hv.
  assert (Hraw : raw <> []) by (destruct raw; simpl in Hlen; [lia | congruence]).
  destruct (bytes_eqb (base64.EncodeToString raw) []) eqn:Hb64.
  { apply bytes_eqb_eq in Hb64.
    exfalso. exact (base64_EncodeToString_not_nil raw Hraw Hb64). }
  destruct (Nat.ltb_spec (length raw) 5) as [Hlt|_]; [lia|].
  cbn [negb orb Nat.ltb Nat.leb app].
  reflexivity.
Qed.

(** Opening a note that carries exactly one signature line. *)
Lemma Open_signed (known : note.Verifier) (t : list byte) (name : string) (raw : list byte) :
  forallb note.text_byte t = true ->
  forallb note.text_byte (list_byte_of_string name) = true ->
  note.isValidName name = true ->
  (5 <= length raw)%nat ->
  note.Open ((t ++ [LF]) ++ [LF] ++ note.sig_line name (base64.EncodeToString raw)) known
  = if String.eqb name (note.Verifier_Name known)
       && (Uint32 (take 4 raw) =? note.Verifier_KeyHash known)
    then
      if note.Verifier_Verify known (t ++ [LF]) (drop 4 raw)
      then Ok {| note.Text := string_of_list_byte (t ++ [LF]);
                 note.Sigs := [ {| note.Sig_Name := name;
                                   note.Sig_Hash := Uint32 (take 4 raw);
                                   note.Sig_Base64 := base64.EncodeToString raw |} ];
                 note.UnverifiedSigs := [] |}
      else Err (note.InvalidSignatureError name)
    else Err note.UnverifiedNoteError.
Proof.
  intros Ht Hn Hv Hlen.
  pose proof (sig_text_not_LF name raw Hv) as Hlf.
  assert (Hne : sig_text name (base64.EncodeToString raw) <> [])
    by (unfold sig_text, note.sigPrefix; discriminate).
  unfold note.Open.
  rewrite !forallb_app, Ht, (sig_line_text_byte name raw Hn).
  cbn [forallb andb negb].
  replace (note.text_byte LF) with true by reflexivity. cbn [andb negb].
  rewrite sig_line_text, (LastIndex_signed t _ Hne Hlf).
  rewrite (take_app_length' (t ++ [LF])) by (rewrite length_app; simpl; lia).
  replace ((t ++ [LF]) ++ [LF] ++ sig_text name (base64.EncodeToString raw) ++ [LF])
    with (((t ++ [LF]) ++ [LF]) ++ sig_text name (base64.EncodeToString raw) ++ [LF])
    by (rewrite <- !app_assoc; reflexivity).
  rewrite drop_app_length' by (rewrite !length_app; simpl; lia).
  rewrite (lines_line _ Hlf).
  cbn [note.open_lines].
  rewrite (open_line_signed known (t ++ [LF]) name raw Hv Hlen).
  cbv zeta.
  destruct (String.eqb name (note.Verifier_Name known)
            && (Uint32 (take 4 raw) =? note.Verifier_KeyHash known)); [|reflexivity].
  destruct (note.Verifier_Verify known (t ++ [LF]) (drop 4 raw)); reflexivity.
Qed.

(** The bytes [note.Sign] produces for a note that has no signature yet. *)
Lemma Sign_inv (text : string) (s : note.Signer) (msg : list byte) :
  note.Sign {| note.Text := text; note.Sigs := []; note.UnverifiedSigs := [] |} s = Ok msg ->
  exists t sig,
    list_byte_of_string text = t ++ [LF]
    /\ note.isValidName (note.Signer_Name s) = true
    /\ note.Signer_Sign s (t ++ [LF]) = Ok sig
    /\ msg = (t ++ [LF]) ++ [LF]
               ++ note.sig_line (note.Signer_Name s)
                    (base64.EncodeToString (PutUint32 (note.Signer_KeyHash s) ++ sig)).
Proof.
  unfold note.Sign. cbn [note.Text note.Sigs note.UnverifiedSigs app note.keep_sigs map concat].
  destruct (HasSuffix (list_byte_of_string text) [LF]) eqn:Hs; cbn [negb]; [|discriminate].
  apply HasSuffix_LF_inv in Hs as [t Ht]. rewrite Ht.
  destruct (note.isValidName (note.Signer_Name s)) eqn:Hv; cbn [negb]; [|discriminate].
  destruct (note.Signer_Sign s (t ++ [LF])) as [sig|e] eqn:Hsig; [|discriminate].
  intros [= <-]. exists t, sig. repeat split; auto.
Qed.

(** ** Checkpoint bodies *)

Lemma Marshal_body (c : f_log.Checkpoint) :
  f_log.Marshal c
  = (list_byte_of_string (f_log.Origin c) ++ [LF] ++ FormatUint (f_log.Size c) ++ [LF]
       ++ base64.EncodeToString (f_log.Hash c)) ++ [LF].
Proof. unfold f_log.Marshal. rewrite <- !app_assoc. reflexivity. Qed.

Lemma Marshal_text_byte (c : f_log.Checkpoint) :
  forallb note.text_byte (list_byte_of_string (f_log.Origin c)) = true ->
  forallb note.text_byte (f_log.Marshal c) = true.
Proof.
  intros Ho. unfold f_log.Marshal.
  rewrite !forallb_app, Ho, (graphic_Forall_text _ (FormatUint_graphic _)),
    (graphic_Forall_text _ (base64_EncodeToString_graphic _)).
  reflexivity.
Qed.

Lemma Unmarshal_Marshal (c : f_log.Checkpoint) :
  f_log.Origin c <> ""%string ->
  Forall (fun b => b <> LF) (list_byte_of_string (f_log.Origin c)) ->
  isU64 (f_log.Size c) ->
  f_log.Unmarshal (f_log.Marshal c) = Ok (c, []).
Proof.
  intros Hne Hlf Hsize. unfold f_log.Unmarshal, f_log.Marshal.
  cbn [app].
  rewrite (Cut_app _ _ _ Hlf).
  rewrite (Cut_app _ _ _ (graphic_Forall_not_LF _ (FormatUint_graphic _))).
  rewrite (Cut_app _ _ _ (graphic_Forall_not_LF _ (base64_EncodeToString_graphic _))).
  rewrite string_of_list_byte_of_string, (string_eqb_neq _ _ Hne).
  rewrite (ParseUint_FormatUint _ Hsize), base64_DecodeString_EncodeToString.
  destruct c; reflexivity.
Qed.

Lemma Uint32_take_PutUint32 (v : Z) (rest : list byte) :
  0 <= v < 2 ^ 32 -> Uint32 (take 4 (PutUint32 v ++ rest)) = v.
Proof.
  intros Hv. rewrite take_PutUint32, <- (app_nil_r (PutUint32 v)).
  apply Uint32_PutUint32. exact Hv.
Qed.

(** ** Keys *)

(** Opening what a signer signed, whoever the verifier is. *)
Lemma Open_Sign (s : note.Signer) (v : note.Verifier) (text msg : list byte) :
  signer_ok s ->
  forallb note.text_byte text = true ->
  note.Sign (note_of text) s = Ok msg ->
  exists sig,
    note.Signer_Sign s text = Ok sig
    /\ note.Open msg v
       = if String.eqb (note.Signer_Name s) (note.Verifier_Name v)
            && (note.Signer_KeyHash s =? note.Verifier_KeyHash v)
         then
           if note.Verifier_Verify v text sig
           then Ok {| note.Text := string_of_list_byte text;
                      note.Sigs :=
                        [ {| note.Sig_Name := note.Signer_Name s;
                             note.Sig_Hash := note.Signer_KeyHash s;
                             note.Sig_Base64 :=
                               base64.EncodeToString
                                 (PutUint32 (note.Signer_KeyHash s) ++ sig) |} ];
                      note.UnverifiedSigs := [] |}
           else Err (note.InvalidSignatureError (note.Signer_Name s))
         else Err note.UnverifiedNoteError.
Proof.
  intros (Hkh & Hname & Hsig) Htext Hsign.
  apply Sign_inv in Hsign as (t & sig & Ht & Hv & Hs & ->).
  rewrite list_byte_of_string_of_list_byte in Ht. subst text.
  exists sig. split; [exact Hs|].
  rewrite forallb_app in Htext. apply andb_true_iff in Htext as [Htt _].
  rewrite (Open_signed v t _ _ Htt Hname Hv).
  - rewrite (Uint32_take_PutUint32 _ _ Hkh), drop_PutUint32. reflexivity.
  - specialize (Hsig _ _ Hs). rewrite length_app. destruct sig; [congruence|].
    simpl. lia.
Qed.

Lemma ParseCheckpoint_Sign (s : note.Signer) (v : note.Verifier)
  (size : Z) (hash msg : list byte) :
  signer_ok s -> matching s v -> isU64 size ->
  note.Sign (note_of (f_log.Marshal (checkpoint_of s size hash))) s = Ok msg ->
  exists n,
    f_log.ParseCheckpoint msg (note.Verifier_Name v) v
    = Ok (checkpoint_of s size hash, [], n).
Proof.
  intros Hok (Hmn & Hmk & Hmv) Hsize Hsign.
  pose proof Hok as (_ & Hname & _).
  pose proof Hsign as Hvalid.
  apply Sign_inv in Hvalid as (_ & _ & _ & Hvalid & _ & _).
  apply isValidName_inv in Hvalid as (Hne & _ & Hlf).
  destruct (Open_Sign s v _ _ Hok (Marshal_text_byte (checkpoint_of s size hash) Hname) Hsign)
    as (sig & Hsig & Hopen).
  rewrite Hmn, Hmk, String.eqb_refl, Z.eqb_refl, (Hmv _ _ Hsig) in Hopen.
  cbn [andb] in Hopen.
  eexists. unfold f_log.ParseCheckpoint. rewrite Hopen.
  cbn [note.Sigs note.Text List.find f_log.log_signature note.Sig_Hash note.Sig_Name].
  unfold f_log.log_signature. cbn [note.Sig_Hash note.Sig_Name].
  rewrite Hmn, Hmk, String.eqb_refl, Z.eqb_refl. cbn [andb].
  rewrite list_byte_of_string_of_list_byte.
  rewrite (Unmarshal_Marshal (checkpoint_of s size hash) Hne Hlf Hsize).
  cbn [f_log.Origin checkpoint_of]. rewrite String.eqb_refl. reflexivity.
Qed.

(** ** A disk and a pair of keys for concrete runs *)

#[global] Instance Disk_StoreLaws : posix.StoreLaws Disk.
Proof.
  constructor. intros path b fs fs'. cbn.
  destruct (bool_decide (path ∈ dirs fs)); intros [= <-]; cbn.
  rewrite lookup_insert_eq. reflexivity.
Qed.

Lemma test_signer_ok (name : string) (hash : Z) (key : byte) :
  0 <= hash < 2 ^ 32 ->
  forallb note.text_byte (list_byte_of_string name) = true ->
  signer_ok (test_signer name hash key).
Proof.
  intros Hh Hn. repeat split; try assumption; try apply Hh.
  cbn. intros msg sig [= <-]. discriminate.
Qed.

Lemma test_keys_matching (name : string) (hash : Z) (key : byte) :
  matching (test_signer name hash key) (test_verifier name hash key).
Proof.
  repeat split. cbn. intros msg sig [= <-]. apply bytes_eqb_eq. reflexivity.
Qed.

Lemma betty_signer_ok : signer_ok betty_signer.
Proof. apply test_signer_ok; [lia | reflexivity]. Qed.

(** ** The checkpoint closures *)

Section ClosureFacts.

Context {FS : Type} `{posix.Store FS}.

Lemma newTree_eq (path : string) (s : note.Signer) (size : Z) (hash : list byte) (fs : FS) :
  newTree path s size hash fs
  = match note.Sign (note_of (f_log.Marshal (checkpoint_of s size hash))) s with
    | Err err => (fs, Some err)
    | Ok msg => posix.WriteCheckpoint path msg fs
    end.
Proof. reflexivity. Qed.

Lemma newTree_published (path : string) (s : note.Signer) (size : Z) (hash : list byte)
  (fs fs' : FS) :
  newTree path s size hash fs = (fs', None) ->
  exists msg,
    note.Sign (note_of (f_log.Marshal (checkpoint_of s size hash))) s = Ok msg
    /\ posix.WriteCheckpoint path msg fs = (fs', None).
Proof.
  rewrite newTree_eq.
  destruct (note.Sign _ s) as [msg|err]; [|discriminate].
  intros Hw. exists msg. split; [reflexivity | exact Hw].
Qed.

Lemma currentTree_accepts (path : string) (v : note.Verifier) (fs : FS)
  (size : Z) (hash : list byte) :
  currentTree path v fs = (size, hash, None) ->
  exists b cp rest n,
    posix.ReadCheckpoint path fs = Ok b
    /\ f_log.ParseCheckpoint b (note.Verifier_Name v) v = Ok (cp, rest, n)
    /\ f_log.Size cp = size /\ f_log.Hash cp = hash.
Proof.
  unfold currentTree.
  destruct (posix.ReadCheckpoint path fs) as [b|e] eqn:Hr; [|discriminate].
  destruct (f_log.ParseCheckpoint b (note.Verifier_Name v) v) as [[[cp rest] n]|e] eqn:Hp;
    [|discriminate].
  intros [= <- <-]. exists b, cp, rest, n. auto.
Qed.

Lemma currentTree_of_parse (path : string) (v : note.Verifier) (fs : FS) (b : list byte)
  (cp : f_log.Checkpoint) (rest : list byte) (n : note.Note) :
  posix.ReadCheckpoint path fs = Ok b ->
  f_log.ParseCheckpoint b (note.Verifier_Name v) v = Ok (cp, rest, n) ->
  currentTree path v fs = (f_log.Size cp, f_log.Hash cp, None).
Proof.
  intros Hr Hp. unfold currentTree. rewrite Hr, Hp. reflexivity.
Qed.

End ClosureFacts.

(** A store that holds what [s] signed for [size] and [hash] is read
    back as that size and hash by the matching verifier. *)
Lemma currentTree_of_signed
  {FS : Type} `{posix.Store FS}
  (path : string) (s : note.Signer) (v : note.Verifier)
  (size : Z) (hash msg : list byte) (fs : FS) :
  signer_ok s -> matching s v -> isU64 size ->
  note.Sign (note_of (f_log.Marshal (checkpoint_of s size hash))) s = Ok msg ->
  posix.ReadCheckpoint path fs = Ok msg ->
  currentTree path v fs = (size, hash, None).
Proof.
  intros Hok Hm Hsize Hsign Hr.
  destruct (ParseCheckpoint_Sign s v size hash msg Hok Hm Hsize Hsign) as (n & Hp).
  apply (currentTree_of_parse path v fs msg _ _ _ Hr Hp).
Qed.

(** C1, as the code has it.  A checkpoint published by [newTree] with
    a well-formed signer (a [uint32] key hash, a name without control
    characters, signatures that are not empty) is read back by
    [currentTree] over the matching verifier: for every size and hash,
    when the publication succeeds on a store that returns what was
    written, [currentTree] returns exactly that size and that hash, and
    no error. *)
Theorem newTree_currentTree_roundtrip
  {FS : Type} `{posix.Store FS} `{!posix.StoreLaws FS}
  (path : string) (s : note.Signer) (v : note.Verifier)
  (size : Z) (hash : list byte) (fs fs' : FS) :
  signer_ok s -> matching s v -> isU64 size ->
  newTree path s size hash fs = (fs', None) ->
  currentTree path v fs' = (size, hash, None).
Proof.
  intros Hok Hm Hsize Hnt.
  apply newTree_published in Hnt as (msg & Hsign & Hw).
  apply posix.read_after_write in Hw.
  exact (currentTree_of_signed path s v size hash msg fs' Hok Hm Hsize Hsign Hw).
Qed.

Lemma newTree_currentTree_roundtrip_witness :
  newTree log_root betty_signer 5 (list_byte_of_string "Empty") disk_ready
  = (fst (newTree log_root betty_signer 5 (list_byte_of_string "Empty") disk_ready), None)
  /\ currentTree log_root betty_verifier
       (fst (newTree log_root betty_signer 5 (list_byte_of_string "Empty") disk_ready))
     = (5, list_byte_of_string "Empty", None).
Proof.
  split; [vm_compute; reflexivity|].
  apply (newTree_currentTree_roundtrip log_root betty_signer betty_verifier 5
           (list_byte_of_string "Empty") disk_ready).
  - exact betty_signer_ok.
  - apply test_keys_matching.
  - unfold isU64. lia.
  - vm_compute. reflexivity.
Defined.

(** C1, as the specification states it, fails: the signer named "a",
    byte 1, "b" is one [note.Sign] accepts, [newTree] publishes its
    checkpoint, and [currentTree] over the matching verifier refuses
    what was published, because a note may not hold a control
    character. *)
Lemma newTree_currentTree_roundtrip_control_name :
  matching control_signer control_verifier
  /\ newTree log_root control_signer 5 Empty disk_ready
     = (fst (newTree log_root control_signer 5 Empty disk_ready), None)
  /\ currentTree log_root control_verifier
       (fst (newTree log_root control_signer 5 Empty disk_ready))
     = (0, [], Some (errorString
                       "failed to verify signatures on checkpoint: malformed note"))
  /\ currentTree log_root control_verifier
       (fst (newTree log_root control_signer 5 Empty disk_ready))
     <> (5, Empty, None).
Proof.
  split; [apply test_keys_matching|].
  split; [vm_compute; reflexivity|].
  split; [vm_compute; reflexivity|].
  vm_compute. discriminate.
Qed.

(** ** Errors of the closures *)

Lemma string_length_append (a b : string) :
  String.length (a +:+ b) = (String.length a + String.length b)%nat.
Proof. induction a as [|c a IH]; simpl; [reflexivity | rewrite IH; reflexivity]. Qed.

Lemma Errorf_v_fresh (prefix : string) (e : error) :
  prefix <> ""%string -> Errorf_v prefix e <> e.
Proof.
  intros Hp Heq. unfold Errorf_v in Heq.
  destruct e as [text|text inner]; [|discriminate].
  injection Heq as Heq. cbn in Heq.
  apply (f_equal String.length) in Heq.
  rewrite string_length_append in Heq.
  destruct prefix; [congruence | simpl in Heq; lia].
Qed.

(** C2, as the code has it.  (1) When [posix.ReadCheckpoint] fails
    with [err], the function returned by [currentTree] returns size 0,
    no hash, and a new error whose text is "ReadCheckpoint: " followed by
    the text of [err]; that error is not [err], has no [Unwrap], and
    [errors.Is] does not find [err] in it.  (2) When the read succeeds
    and [f_log.ParseCheckpoint] fails with [err], it returns size 0, no
    hash, and [err] itself, as it is. *)
Theorem currentTree_read_error
  {FS : Type} `{posix.Store FS}
  (path : string) (v : note.Verifier) (fs : FS) :
  (forall err,
      posix.ReadCheckpoint path fs = Err err ->
      currentTree path v fs = (0, [], Some (errorString ("ReadCheckpoint: " +:+ Error err)))
      /\ errorString ("ReadCheckpoint: " +:+ Error err) <> err
      /\ Unwrap (errorString ("ReadCheckpoint: " +:+ Error err)) = None
      /\ ~ errors_Is (errorString ("ReadCheckpoint: " +:+ Error err)) err)
  /\ (forall b err,
         posix.ReadCheckpoint path fs = Ok b ->
         f_log.ParseCheckpoint b (note.Verifier_Name v) v = Err err ->
         currentTree path v fs = (0, [], Some err)).
Proof.
  split.
  - intros err Hr.
    assert (Hfresh : errorString ("ReadCheckpoint: " +:+ Error err) <> err)
      by (apply (Errorf_v_fresh "ReadCheckpoint: " err); discriminate).
    repeat split.
    + unfold currentTree. rewrite Hr. reflexivity.
    + exact Hfresh.
    + cbn. intros [Heq|[]]. exact (Hfresh Heq).
  - intros b err Hr Hp. unfold currentTree. rewrite Hr, Hp. reflexivity.
Qed.

Lemma currentTree_read_error_witness :
  currentTree log_root betty_verifier Disk_empty
  = (0, [], Some (errorString
                    "ReadCheckpoint: open /tmp/log/checkpoint: no such file or directory"))
  /\ currentTree log_root betty_verifier
       (disk_holding (signed_bytes other_signer (checkpoint_of other_signer 5 Empty)))
     = (0, [], Some (errorString
                       "failed to verify signatures on checkpoint: invalid signature for key Test-Betty")).
Proof.
  split.
  - destruct (currentTree_read_error log_root betty_verifier Disk_empty) as [Hread _].
    apply (Hread (wrapError "open /tmp/log/checkpoint: no such file or directory"
                    ErrNotExist)).
    reflexivity.
  - destruct (currentTree_read_error log_root betty_verifier
                (disk_holding (signed_bytes other_signer (checkpoint_of other_signer 5 Empty))))
      as [_ Hparse].
    apply (Hparse (signed_bytes other_signer (checkpoint_of other_signer 5 Empty))).
    + vm_compute. reflexivity.
    + vm_compute. reflexivity.
Defined.

(** C2, as the specification states it, fails: on a disk without a
    checkpoint the read fails with a path error that wraps
    [ErrNotExist]; the error [currentTree] returns is another one, and
    [errors.Is] no longer finds [ErrNotExist] in it. *)
Lemma currentTree_read_error_not_returned :
  let read_err :=
    wrapError "open /tmp/log/checkpoint: no such file or directory" ErrNotExist in
  let returned :=
    errorString "ReadCheckpoint: open /tmp/log/checkpoint: no such file or directory" in
  posix.ReadCheckpoint log_root Disk_empty = Err read_err
  /\ errors_Is read_err ErrNotExist
  /\ currentTree log_root betty_verifier Disk_empty = (0, [], Some returned)
  /\ returned <> read_err
  /\ ~ errors_Is returned ErrNotExist.
Proof.
  cbv zeta.
  split; [reflexivity|]. split; [cbn; auto|].
  split; [vm_compute; reflexivity|].
  split; [discriminate|].
  cbn. intros [Heq|[]]. discriminate.
Qed.

(** C9.  When signing the marshalled checkpoint fails, [newTree]
    returns the error of [note.Sign] and the file system is the one it
    was given: nothing is written. *)
Theorem newTree_sign_error
  {FS : Type} `{posix.Store FS}
  (path : string) (signer : note.Signer) (size : Z) (hash : list byte) (fs : FS)
  (err : error) :
  note.Sign {| note.Text :=
                 string_of_list_byte
                   (f_log.Marshal {| f_log.Origin := note.Signer_Name signer;
                                     f_log.Size := size; f_log.Hash := hash |});
               note.Sigs := []; note.UnverifiedSigs := [] |} signer = Err err ->
  newTree path signer size hash fs = (fs, Some err).
Proof.
  intros Hs. unfold newTree. rewrite Hs. reflexivity.
Qed.

Lemma newTree_sign_error_witness :
  newTree log_root (broken_signer "Test-Betty" 3750516746) 7 (list_byte_of_string "root")
    disk_ready
  = (disk_ready, Some (errorString "signing key unavailable")).
Proof.
  apply (newTree_sign_error log_root (broken_signer "Test-Betty" 3750516746) 7
           (list_byte_of_string "root") disk_ready).
  reflexivity.
Defined.

(** C6.  A checkpoint signed by [s] is refused by [currentTree] over a
    verifier that is not the one of [s] (another name, another key hash,
    or a key that rejects the signatures of [s]): whatever the text that
    was signed, the result is an error, with size 0 and no hash. *)
Theorem currentTree_mismatched_key
  {FS : Type} `{posix.Store FS}
  (path : string) (s : note.Signer) (v : note.Verifier)
  (text msg : list byte) (fs : FS) :
  signer_ok s -> mismatched s v ->
  note.Sign (note_of text) s = Ok msg ->
  posix.ReadCheckpoint path fs = Ok msg ->
  exists err, currentTree path v fs = (0, [], Some err).
Proof.
  intros Hok Hmis Hsign Hr.
  unfold currentTree. rewrite Hr.
  assert (Hopen : exists e, note.Open msg v = Err e).
  { destruct (forallb note.text_byte text) eqn:Htext.
    - destruct (Open_Sign s v text msg Hok Htext Hsign) as (sig & Hsig & ->).
      destruct Hmis as [Hn | [Hk | Hv]].
      + rewrite (string_eqb_neq _ _ (not_eq_sym Hn)). cbn [andb]. eauto.
      + destruct (Z.eqb_spec (note.Signer_KeyHash s) (note.Verifier_KeyHash v)) as [Heq|_];
          [congruence|].
        rewrite andb_false_r. eauto.
      + rewrite (Hv _ _ Hsig).
        destruct (_ && _); eauto.
    - apply Sign_inv in Hsign as (t & sig & Ht & _ & _ & ->).
      rewrite list_byte_of_string_of_list_byte in Ht. subst text.
      unfold note.Open. rewrite forallb_app, Htext. cbn [andb negb]. eauto. }
  destruct Hopen as (e & He).
  unfold f_log.ParseCheckpoint. rewrite He. eauto.
Qed.

Lemma currentTree_mismatched_key_witness :
  exists err,
    currentTree log_root (test_verifier "Test-Betty" 3750516746 x42)
      (fst (newTree log_root betty_signer 5 (list_byte_of_string "Empty") disk_ready))
    = (0, [], Some err).
Proof.
  destruct (note.Sign (note_of (f_log.Marshal (checkpoint_of betty_signer 5
                                                 (list_byte_of_string "Empty"))))
              betty_signer) as [msg|e] eqn:Hsign; [|vm_compute in Hsign; discriminate].
  apply (currentTree_mismatched_key log_root betty_signer
           (test_verifier "Test-Betty" 3750516746 x42)
           (f_log.Marshal (checkpoint_of betty_signer 5 (list_byte_of_string "Empty")))
           msg).
  - exact betty_signer_ok.
  - right. right. cbn. intros m sig [= <-]. reflexivity.
  - exact Hsign.
  - vm_compute in Hsign. injection Hsign as <-. vm_compute. reflexivity.
Defined.

(** ** What [note.Open] accepts *)

Lemma CutPrefix_inv (s p r : list byte) : CutPrefix s p = Some r -> s = p ++ r.
Proof.
  revert s. induction p as [|c p IH]; intros s; simpl.
  - intros [= ->]. reflexivity.
  - destruct s as [|d s]; [discriminate|].
    destruct (Byte.eqb d c) eqn:Hd; [|discriminate].
    apply byte_eqb_eq in Hd. subst d.
    intros Hc. rewrite (IH _ Hc). reflexivity.
Qed.

Lemma Cut_inv (s : list byte) (sep : byte) (a b : list byte) :
  Cut s sep = Some (a, b) -> s = a ++ sep :: b.
Proof.
  revert a. induction s as [|c s IH]; intros a; simpl; [discriminate|].
  destruct (Byte.eqb c sep) eqn:Hc.
  - apply byte_eqb_eq in Hc. subst c. intros [= <- <-]. reflexivity.
  - destruct (Cut s sep) as [[a' b']|]; [|discriminate].
    intros [= <- <-]. rewrite (IH a' eq_refl). reflexivity.
Qed.

Lemma HasPrefix_inv (s p : list byte) : HasPrefix s p = true -> exists r, s = p ++ r.
Proof.
  unfold HasPrefix. destruct (CutPrefix s p) as [r|] eqn:E; [|discriminate].
  intros _. exists r. apply CutPrefix_inv. exact E.
Qed.

Lemma LastIndex_sound (s sep : list byte) (i : nat) :
  LastIndex s sep = Some i -> exists r, s = take i s ++ sep ++ r.
Proof.
  revert i. induction s as [|c s IH]; intros i; simpl.
  - destruct (HasPrefix [] sep) eqn:Hp; [|discriminate].
    intros [= <-]. apply HasPrefix_inv in Hp as [r Hr]. exists r. exact Hr.
  - destruct (LastIndex s sep) as [j|] eqn:Hj.
    + intros [= <-]. destruct (IH j eq_refl) as [r Hr].
      exists r. simpl. f_equal. exact Hr.
    + destruct (HasPrefix (c :: s) sep) eqn:Hp; [|discriminate].
      intros [= <-]. apply HasPrefix_inv in Hp as [r Hr]. exists r. exact Hr.
Qed.

Lemma lines_from_sound (cur s : list byte) (ls : list (list byte)) (tail : list byte) :
  lines_from cur s = (ls, tail) ->
  rev cur ++ s = concat (map with_LF ls) ++ tail.
Proof.
  revert cur ls tail. induction s as [|c s IH]; intros cur ls tail; simpl.
  - intros [= <- <-]. rewrite app_nil_r. reflexivity.
  - destruct (Byte.eqb c LF) eqn:Hc.
    + apply byte_eqb_eq in Hc. subst c.
      destruct (lines_from [] s) as [ls' tail'] eqn:E.
      intros [= <- <-]. apply IH in E. simpl in E.
      simpl. unfold with_LF at 1. rewrite <- !app_assoc. simpl. rewrite E. reflexivity.
    + intros E. apply IH in E. simpl in E. rewrite <- app_assoc in E. exact E.
Qed.

Lemma lines_sound (s : list byte) (ls : list (list byte)) (tail : list byte) :
  lines s = (ls, tail) -> s = concat (map with_LF ls) ++ tail.
Proof. intros E. apply (lines_from_sound [] s ls tail E). Qed.

Lemma open_line_verified (known : note.Verifier) (text line : list byte)
  (st st' : note.open_state) :
  note.open_line known text line st = Ok st' ->
  note.verified st' = note.verified st
  \/ exists sg, note.verified st' = note.verified st ++ [sg]
                /\ verified_sig known text line sg.
Proof.
  unfold note.open_line.
  destruct (CutPrefix line note.sigPrefix) as [rest|] eqn:Hpre; [|discriminate].
  apply CutPrefix_inv in Hpre.
  destruct (Cut rest SP) as [[nameb b64]|] eqn:Hcut.
  - apply Cut_inv in Hcut.
    destruct (base64.DecodeString b64) as [raw|] eqn:Hdec; [|discriminate].
    destruct (negb _ || _ || _); [discriminate|].
    destruct (100 <? Datatypes.S (note.numSig st))%nat; [discriminate|].
    destruct (String.eqb (string_of_list_byte nameb) (note.Verifier_Name known)) eqn:Hn;
      cbn [andb].
    + destruct (Z.eqb_spec (Uint32 (take 4 raw)) (note.Verifier_KeyHash known)) as [Hk|Hk].
      * destruct (note.seen st); [intros [= <-]; left; reflexivity|].
        destruct (note.Verifier_Verify known text (drop 4 raw)) eqn:Hver; [|discriminate].
        intros [= <-]. right. eexists. split; [reflexivity|].
        apply String.eqb_eq in Hn.
        unfold verified_sig, sig_text.
        cbn [note.Sig_Name note.Sig_Hash note.Sig_Base64].
        rewrite list_byte_of_string_of_list_byte.
        repeat split; auto.
        -- subst line rest. reflexivity.
        -- exists raw. auto.
      * intros [= <-]. left. reflexivity.
    + intros [= <-]. left. reflexivity.
  - destruct (base64.DecodeString []) as [raw|]; [|discriminate].
    rewrite orb_true_r. cbn. discriminate.
Qed.

Lemma open_lines_verified (known : note.Verifier) (text : list byte)
  (all ls : list (list byte)) (st st' : note.open_state) :
  (forall line, In line ls -> In line all) ->
  Forall (fun sg => exists line, In line all /\ verified_sig known text line sg)
    (note.verified st) ->
  note.open_lines known text ls st = Ok st' ->
  Forall (fun sg => exists line, In line all /\ verified_sig known text line sg)
    (note.verified st').
Proof.
  revert st. induction ls as [|line ls IH]; intros st Hsub Hinv; simpl.
  - intros [= <-]. exact Hinv.
  - destruct (note.open_line known text line st) as [st1|e] eqn:Hline; [|discriminate].
    intros Hrest. apply (IH st1); [intros l Hl; apply Hsub; right; exact Hl | | exact Hrest].
    destruct (open_line_verified _ _ _ _ _ Hline) as [-> | (sg & -> & Hsg)]; [exact Hinv|].
    apply Forall_app_2; [exact Hinv|].
    constructor; [|constructor].
    exists line. split; [apply Hsub; left; reflexivity | exact Hsg].
Qed.

Lemma Open_inv (msg : list byte) (known : note.Verifier) (n : note.Note) :
  note.Open msg known = Ok n ->
  exists text,
    note.Text n = string_of_list_byte text
    /\ (forall sg, In sg (note.Sigs n) -> signed_by known msg text)
    /\ note.Sigs n <> [].
Proof.
  unfold note.Open.
  destruct (negb (forallb note.text_byte msg)); [discriminate|].
  destruct (LastIndex msg note.sigSplit) as [split|] eqn:Hsplit; [|discriminate].
  destruct (lines (drop (split + 2) msg)) as [ls tail] eqn:Hlines.
  destruct ls as [|l0 ls]; [destruct tail; discriminate|].
  destruct tail; [|discriminate].
  destruct (note.open_lines known (take (split + 1) msg) (l0 :: ls) _) as [st|e] eqn:Hopen;
    [|discriminate].
  destruct (note.verified st) as [|sg0 sgs] eqn:Hver; [discriminate|].
  intros [= <-]. exists (take (split + 1) msg). cbn [note.Text note.Sigs].
  split; [reflexivity|]. split; [|discriminate].
  apply LastIndex_sound in Hsplit as [r Hr].
  apply lines_sound in Hlines. rewrite app_nil_r in Hlines.
  assert (Hmsg : msg = take (split + 1) msg ++ [LF] ++ drop (split + 2) msg).
  { assert (Hlen : (split <= length msg)%nat).
    { destruct (Nat.le_gt_cases split (length msg)) as [Hle|Hgt]; [exact Hle|].
      rewrite take_ge in Hr by lia.
      apply (f_equal length) in Hr. rewrite !length_app in Hr. simpl in Hr. lia. }
    assert (Htk : length (take split msg) = split) by (rewrite length_take; lia).
    rewrite Hr at 1 2 3.
    replace (take split msg ++ note.sigSplit ++ r)
      with ((take split msg ++ [LF]) ++ [LF] ++ r) by (rewrite <- app_assoc; reflexivity).
    rewrite (take_app_length' (take split msg ++ [LF]))
      by (rewrite length_app, Htk; simpl; lia).
    replace ((take split msg ++ [LF]) ++ [LF] ++ r)
      with (((take split msg ++ [LF]) ++ [LF]) ++ r) at 2
      by (rewrite <- !app_assoc; reflexivity).
    rewrite drop_app_length' by (rewrite !length_app, Htk; simpl; lia).
    rewrite <- !app_assoc. reflexivity. }
  assert (Hall : Forall (fun sg => exists line, In line (l0 :: ls)
                            /\ verified_sig known (take (split + 1) msg) line sg)
                   (note.verified st)).
  { eapply open_lines_verified; [ | | exact Hopen]; [auto | constructor]. }
  rewrite Hver in Hall. rewrite Forall_forall in Hall.
  intros sg Hsg. apply list_elem_of_In in Hsg.
  destruct (Hall sg Hsg) as (line & Hin & Hname & Hhash & Hline & raw & Hdec & Hk & Hv).
  apply in_split in Hin as (l1 & l2 & Hl).
  exists (concat (map with_LF l1)), (concat (map with_LF l2)), (note.Sig_Base64 sg), raw.
  repeat split; auto.
  rewrite Hmsg at 1. do 2 f_equal.
  rewrite Hlines, Hl, map_app, concat_app. cbn [map concat].
  f_equal. f_equal. unfold with_LF. rewrite Hline, Hname, sig_line_text. reflexivity.
Qed.

Lemma ParseCheckpoint_inv (msg : list byte) (origin : string) (v : note.Verifier)
  (cp : f_log.Checkpoint) (rest : list byte) (n : note.Note) :
  f_log.ParseCheckpoint msg origin v = Ok (cp, rest, n) ->
  exists text,
    signed_by v msg text
    /\ f_log.Unmarshal text = Ok (cp, rest)
    /\ f_log.Origin cp = origin.
Proof.
  unfold f_log.ParseCheckpoint.
  destruct (note.Open msg v) as [n'|e] eqn:Hopen; [|discriminate].
  destruct (List.find (f_log.log_signature v) (note.Sigs n')) as [sg|] eqn:Hfind;
    [|discriminate].
  apply find_some in Hfind as [Hin _].
  apply Open_inv in Hopen as (text & Htext & Hsigned & _).
  rewrite Htext, list_byte_of_string_of_list_byte.
  destruct (f_log.Unmarshal text) as [[cp' rest']|e] eqn:Hun; [|discriminate].
  destruct (String.eqb (f_log.Origin cp') origin) eqn:Ho; cbn [negb]; [|discriminate].
  intros [= <- <- <-]. exists text.
  apply String.eqb_eq in Ho. eauto.
Qed.

(** C7.  (1) What [newTree] publishes is the marshalled checkpoint
    followed by a blank line and the signer's signature line, and the
    first line of it, the declared origin, is exactly the signer's name.
    (2) When [currentTree] accepts, the checkpoint that was read carries
    a signature line named as the verifier whose signature the verifying
    key accepts over the body, and the origin that the body declares is
    the verifier's name; the size and hash returned are the body's. *)
Theorem checkpoint_validity
  {FS : Type} `{posix.Store FS}
  (path : string) (s : note.Signer) (v : note.Verifier) :
  (forall (size : Z) (hash : list byte) (fs fs' : FS),
      newTree path s size hash fs = (fs', None) ->
      exists msg sig rest,
        posix.WriteCheckpoint path msg fs = (fs', None)
        /\ msg = f_log.Marshal {| f_log.Origin := note.Signer_Name s;
                                  f_log.Size := size; f_log.Hash := hash |}
                   ++ [LF]
                   ++ note.sig_line (note.Signer_Name s)
                        (base64.EncodeToString (PutUint32 (note.Signer_KeyHash s) ++ sig))
        /\ Cut msg LF = Some (list_byte_of_string (note.Signer_Name s), rest))
  /\
  (forall (fs : FS) (size : Z) (hash : list byte),
      currentTree path v fs = (size, hash, None) ->
      exists msg text cp rest,
        posix.ReadCheckpoint path fs = Ok msg
        /\ signed_by v msg text
        /\ f_log.Unmarshal text = Ok (cp, rest)
        /\ f_log.Origin cp = note.Verifier_Name v
        /\ f_log.Size cp = size /\ f_log.Hash cp = hash).
Proof.
  split.
  - intros size hash fs fs' Hnt.
    apply newTree_published in Hnt as (msg & Hsign & Hw).
    apply Sign_inv in Hsign as (t & sig & Ht & Hv & _ & Hmsg).
    rewrite list_byte_of_string_of_list_byte in Ht.
    apply isValidName_inv in Hv as (_ & _ & Hlf).
    exists msg, sig. eexists. split; [exact Hw|].
    fold (checkpoint_of s size hash). rewrite Ht. split; [exact Hmsg|].
    rewrite Hmsg, <- Ht. unfold f_log.Marshal, checkpoint_of. cbn [f_log.Origin].
    rewrite <- !app_assoc. cbn [app].
    apply Cut_app. exact Hlf.
  - intros fs size hash Hct.
    apply currentTree_accepts in Hct as (msg & cp & rest & n & Hr & Hp & Hs & Hh).
    apply ParseCheckpoint_inv in Hp as (text & Hsigned & Hun & Ho).
    exists msg, text, cp, rest. repeat split; assumption.
Qed.

Lemma checkpoint_validity_witness :
  (exists msg rest,
      checkpoints (fst (newTree log_root betty_signer 5 (list_byte_of_string "Empty")
                          disk_ready)) !! log_root = Some msg
      /\ Cut msg LF = Some (list_byte_of_string "Test-Betty", rest))
  /\ (exists msg text cp rest,
         signed_by betty_verifier msg text
         /\ f_log.Unmarshal text = Ok (cp, rest)
         /\ f_log.Origin cp = "Test-Betty"%string).
Proof.
  pose proof (checkpoint_validity (FS := Disk) log_root betty_signer betty_verifier)
    as [Hpub Hacc].
  split.
  - destruct (Hpub 5 (list_byte_of_string "Empty") disk_ready
                (fst (newTree log_root betty_signer 5 (list_byte_of_string "Empty")
                        disk_ready)))
      as (msg & sig & rest & Hw & _ & Hcut); [vm_compute; reflexivity|].
    exists msg, rest. split; [|exact Hcut].
    apply posix.read_after_write in Hw. cbn in Hw.
    destruct (checkpoints _ !! log_root); [|discriminate].
    injection Hw as ->. reflexivity.
  - destruct (Hacc (fst (newTree log_root betty_signer 5 (list_byte_of_string "Empty")
                           disk_ready))
                5 (list_byte_of_string "Empty"))
      as (msg & text & cp & rest & _ & Hs & Hu & Ho & _); [vm_compute; reflexivity|].
    exists msg, text, cp, rest. repeat split; assumption.
Defined.

(** A checkpoint on which no signature line of the verifier verifies is
    refused, whatever its bytes. *)
Lemma currentTree_unsigned_refused
  {FS : Type} `{posix.Store FS}
  (path : string) (v : note.Verifier) (msg : list byte) (fs : FS) :
  posix.ReadCheckpoint path fs = Ok msg ->
  (forall text, ~ signed_by v msg text) ->
  exists err, currentTree path v fs = (0, [], Some err).
Proof.
  intros Hr Hnone. unfold currentTree. rewrite Hr.
  destruct (f_log.ParseCheckpoint msg (note.Verifier_Name v) v) as [[[cp rest] n]|e] eqn:Hp;
    [|eauto].
  apply ParseCheckpoint_inv in Hp as (text & Hsigned & _).
  exfalso. exact (Hnone text Hsigned).
Qed.

(** ** Startup *)



(** ** The latency aggregator *)

(** C4, on the code.  After [Add(100ms)] then [Add(300ms)] on a fresh
    aggregator the count is 2, the total 400ms (mean 200ms) and the
    maximum 300ms, but the minimum is still the zero value it started
    with: [String] renders "Min: 0s", not 100ms. *)
Theorem latency_two_samples :
  let l := latency_Add (latency_Add latency_zero (100 * Millisecond)) (300 * Millisecond) in
  n l = 2
  /\ Z.quot (total l) (n l) = 200 * Millisecond
  /\ max l = 300 * Millisecond
  /\ min l = 0
  /\ min l <> 100 * Millisecond
  /\ latency_String l = "[Mean: 200ms Min: 0s Max 300ms]"%string.
Proof.
  vm_compute. repeat split; discriminate.
Qed.

(** The minimum never leaves zero while the samples are not negative. *)
Lemma latency_min_stuck (ds : list Duration) :
  Forall (fun d => 0 <= d) ds ->
  min (fold_left latency_Add ds latency_zero) = 0.
Proof.
  intros Hall.
  assert (Hgen : forall l, min l = 0 -> min (fold_left latency_Add ds l) = 0).
  { induction Hall as [|d ds Hd _ IH]; intros l Hl; simpl; [exact Hl|].
    apply IH. unfold latency_Add. cbn [min]. rewrite Hl.
    destruct (Z.ltb_spec d 0); [lia | reflexivity]. }
  apply Hgen. reflexivity.
Qed.

Example latency_String_fresh : latency_String latency_zero = "--"%string.
Proof. reflexivity. Qed.

Example Duration_String_examples :
  map Duration_String [0; 1; 1500; 200 * Millisecond; 1500 * Millisecond;
                       90 * Second; 3723 * Second + 4 * Millisecond; - 300 * Millisecond]
  = ["0s"; "1ns"; String "1" (String "." (String "5" (String "194" (String "181" "s"))));
     "200ms"; "1.5s"; "1m30s"; "1h2m3.004s"; "-300ms"]%string.
Proof. vm_compute. reflexivity. Qed.

(** ** The [POST /add] handler *)

(** C5.  The answer of [POST /add] on a fresh response writer: status
    200 and body "<idx>\n" when the body was read and [Sequence]
    returned [idx]; status 500 and the body "Failed to sequence entry: "
    followed by the error's text when [Sequence] failed; status 500 and
    an empty body when the request body could not be read. *)
Theorem addHandler_response
  {S : Type} `{Storage S}
  (elapsed : Duration) (r : Request) (s : S) (l : latency) :
  let w := fst (fst (addHandler elapsed r ResponseWriter_new s l)) in
  match ReadAll_Body r with
  | Err _ => response_status w = 500 /\ body w = []
  | Ok b =>
      match snd (Sequence b s) with
      | Ok idx => response_status w = 200 /\ body w = FormatUint idx ++ [LF]
      | Err err =>
          response_status w = 500
          /\ body w = list_byte_of_string ("Failed to sequence entry: " +:+ Error err)
      end
  end.
Proof.
  unfold addHandler.
  destruct (ReadAll_Body r) as [b|e]; cbn; [|split; reflexivity].
  destruct (Sequence b s) as [s' [idx|err]]; cbn; split; reflexivity.
Qed.

Example addHandler_hello_world :
  let s0 := {| entries := []; out_of_order := false |} in
  let '(w1, s1, l1) :=
    addHandler 1000 {| ReadAll_Body := Ok (list_byte_of_string "hello") |}
      ResponseWriter_new s0 latency_zero in
  let '(w2, s2, l2) :=
    addHandler 1000 {| ReadAll_Body := Ok (list_byte_of_string "world") |}
      ResponseWriter_new s1 l1 in
  (response_status w1, string_of_list_byte (body w1)) = (200, String "0" (String "010" ""))
  /\ (response_status w2, string_of_list_byte (body w2)) = (200, String "1" (String "010" ""))
  /\ n l2 = 2.
Proof. vm_compute. repeat split; reflexivity. Qed.

(** C8.  Whatever the request and whatever [Sequence] returns, an error
    included, the handler leaves the aggregator with the elapsed time
    added: the sample count is one more than before. *)
Theorem addHandler_records_latency
  {S : Type} `{Storage S}
  (elapsed : Duration) (r : Request) (w : ResponseWriter) (s : S) (l : latency) :
  - 2 ^ 63 <= n l < 2 ^ 63 - 1 ->
  let l' := snd (addHandler elapsed r w s l) in
  l' = latency_Add l elapsed /\ n l' = n l + 1.
Proof.
  intros Hn. unfold addHandler.
  assert (Hcount : n (latency_Add l elapsed) = n l + 1).
  { unfold latency_Add, wrapI64. cbn [n].
    rewrite Z.mod_small by lia. lia. }
  destruct (ReadAll_Body r) as [b|e]; [destruct (Sequence b s) as [s' [idx|err]]|];
    cbn; split; auto.
Qed.

Lemma addHandler_records_latency_witness :
  let broken := {| entries := []; out_of_order := true |} in
  let r := {| ReadAll_Body := Ok (list_byte_of_string "hello") |} in
  snd (Sequence (list_byte_of_string "hello") broken) = Err (errorString "storage unavailable")
  /\ response_status (fst (fst (addHandler 2500 r ResponseWriter_new broken latency_zero))) = 500
  /\ snd (addHandler 2500 r ResponseWriter_new broken latency_zero)
     = latency_Add latency_zero 2500
  /\ n (snd (addHandler 2500 r ResponseWriter_new broken latency_zero)) = 0 + 1.
Proof.
  intros broken r.
  split; [reflexivity|]. split; [reflexivity|].
  apply (addHandler_records_latency 2500 r ResponseWriter_new broken latency_zero).
  cbn. lia.
Defined.

(** ** The stats reporter *)

Section Stats.

Context {FS : Type}.
Variable s : posix.CurrentTreeFunc FS.

Lemma printStats_loop_app (last : Z) (pre evs : list (@event FS)) :
  Forall (@is_tick FS) pre ->
  printStats_loop s last (pre ++ evs)
  = (fst (printStats_loop s last pre)
       ++ fst (printStats_loop s (snd (printStats_loop s last pre)) evs),
     snd (printStats_loop s (snd (printStats_loop s last pre)) evs)).
Proof.
  intros Hpre. revert last.
  induction Hpre as [|e pre He _ IH]; intros last.
  - cbn. destruct (printStats_loop s last evs). reflexivity.
  - destruct e as [|fs l]; [exfalso; apply He; reflexivity|].
    cbn [app printStats_loop].
    destruct (printStats_tick s last fs l) as [out last1].
    rewrite IH.
    destruct (printStats_loop s last1 pre) as [o1 l1]. cbn [fst snd].
    destruct (printStats_loop s l1 evs) as [o2 l2]. cbn [fst snd].
    rewrite app_assoc. reflexivity.
Qed.

(** [lastSize] is the size the latest successful tick observed, or the
    value it started with when no tick has succeeded. *)
Lemma printStats_loop_last (last : Z) (pre : list (@event FS)) :
  Forall (@is_tick FS) pre ->
  (snd (printStats_loop s last pre) = last /\ Forall (tick_failed s) pre)
  \/ exists pre1 fs0 l0 hash0 post,
       pre = pre1 ++ After fs0 l0 :: post
       /\ s fs0 = (snd (printStats_loop s last pre), hash0, None)
       /\ Forall (tick_failed s) post.
Proof.
  intros Hpre. revert last.
  induction Hpre as [|e pre He _ IH]; intros last.
  - left. split; [reflexivity | constructor].
  - destruct e as [|fs l]; [exfalso; apply He; reflexivity|].
    cbn [printStats_loop]. unfold printStats_tick.
    destruct (s fs) as [[size hash] [err|]] eqn:Hs.
    + destruct (IH last) as [[Hl Hf] | (pre1 & fs0 & l0 & h0 & post & -> & Hs0 & Hf)].
      * left. destruct (printStats_loop s last pre) as [o1 l1]. cbn [snd] in *.
        split; [exact Hl|]. constructor; [|exact Hf].
        exists fs, l, size, hash, err. auto.
      * right. exists (After fs l :: pre1), fs0, l0, h0, post.
        destruct (printStats_loop s last _) as [o1 l1]. cbn [snd] in *. auto.
    + destruct (IH size) as [[Hl Hf] | (pre1 & fs0 & l0 & h0 & post & -> & Hs0 & Hf)].
      * right. exists [], fs, l, hash, pre.
        destruct (printStats_loop s size pre) as [o1 l1]. cbn [snd] in *.
        subst l1. auto.
      * right. exists (After fs l :: pre1), fs0, l0, h0, post.
        destruct (printStats_loop s size _) as [o1 l1]. cbn [snd] in *. auto.
Qed.

End Stats.

(** C10.  Take a run of the loop in which the timer has fired through
    [pre] and fires once more.  (1) The loop logs what that tick logs
    after what it logged before.  (2) If the tick logs a size/growth
    line, the accessor succeeded on it and [lastSize], the size the
    latest earlier successful tick observed, is strictly positive.
    (3) If every earlier successful tick observed size 0, in particular
    if there was none, no size/growth line is logged.  (4) On success
    [lastSize] becomes the size just observed. *)
Theorem printStats_logs_after_positive_size
  {FS : Type} (s : posix.CurrentTreeFunc FS)
  (pre : list (@event FS)) (fs : FS) (l : latency) :
  Forall (fun e => e <> CtxDone) pre ->
  let lastSize := snd (printStats s pre) in
  let out := fst (printStats_tick s lastSize fs l) in
  let lastSize' := snd (printStats_tick s lastSize fs l) in
  printStats s (pre ++ [After fs l]) = (fst (printStats s pre) ++ out, lastSize')
  /\ (forall msg,
         In (Infof msg) out ->
         (exists size hash, s fs = (size, hash, None))
         /\ lastSize > 0
         /\ exists pre1 fs0 l0 hash0 post,
              pre = pre1 ++ After fs0 l0 :: post
              /\ s fs0 = (lastSize, hash0, None)
              /\ Forall (tick_failed s) post)
  /\ ((forall fs0 l0 size0 hash0,
          In (After fs0 l0) pre -> s fs0 = (size0, hash0, None) -> size0 = 0) ->
      forall msg, ~ In (Infof msg) out)
  /\ (forall size hash, s fs = (size, hash, None) -> lastSize' = size).
Proof.
  intros Hpre lastSize out lastSize'.
  pose proof (printStats_loop_last s 0 pre Hpre) as Hlast.
  fold (printStats s pre) in Hlast. fold lastSize in Hlast.
  assert (Hout : forall msg, In (Infof msg) out ->
                   (exists size hash, s fs = (size, hash, None)) /\ lastSize > 0).
  { intros msg. subst out. unfold printStats_tick.
    destruct (s fs) as [[size hash] [err|]]; cbn [fst].
    - intros [Hin|[]]. discriminate.
    - destruct (Z.gtb_spec lastSize 0) as [Hgt|Hle]; [|intros []].
      intros _. split; [eauto | lia]. }
  split; [|split; [|split]].
  - unfold printStats. rewrite (printStats_loop_app s 0 pre [After fs l] Hpre).
    fold (printStats s pre). fold lastSize.
    cbn [printStats_loop]. subst out lastSize'.
    destruct (printStats_tick s lastSize fs l) as [o1 l1]. cbn [fst snd].
    rewrite app_nil_r. reflexivity.
  - intros msg Hin. destruct (Hout msg Hin) as [Hok Hpos].
    split; [exact Hok|]. split; [exact Hpos|].
    destruct Hlast as [[Hz _] | Hdec]; [lia | exact Hdec].
  - intros Hzero msg Hin. destruct (Hout msg Hin) as [_ Hpos].
    destruct Hlast as [[Hz _] | (pre1 & fs0 & l0 & h0 & post & Hp & Hs0 & _)]; [lia|].
    assert (lastSize = 0); [|lia].
    apply (Hzero fs0 l0 lastSize h0); [|exact Hs0].
    rewrite Hp. apply in_or_app. right. left. reflexivity.
  - intros size hash Hs. subst lastSize'. unfold printStats_tick. rewrite Hs. reflexivity.
Qed.

Lemma printStats_logs_after_positive_size_witness :
  Forall (fun e => e <> CtxDone) stats_run
  /\ printStats (currentTree log_root betty_verifier)
       (stats_run ++ [After (disk_with 7) latency_zero])
     = ([Errorf "Failed to get checkpoint: ReadCheckpoint: open /tmp/log/checkpoint: no such file or directory";
         Infof "CP size 7 (+2); Latency: --"], 7).
Proof.
  assert (Hrun : Forall (fun e : @event Disk => e <> CtxDone) stats_run).
  { unfold stats_run. repeat (constructor; [discriminate|]). constructor. }
  split; [exact Hrun|].
  destruct (printStats_logs_after_positive_size (currentTree log_root betty_verifier)
              stats_run (disk_with 7) latency_zero Hrun) as [Hstep _].
  rewrite Hstep. vm_compute. reflexivity.
Defined.

(** * Further properties of main.go *)

(** ** [latency.Add] and [latency.String] over a run of samples *)

Lemma latency_Add_min (l : latency) (d : Duration) :
  min (latency_Add l d) = Z.min (min l) d.
Proof.
  unfold latency_Add. cbn [min].
  destruct (Z.ltb_spec d (min l)); lia.
Qed.

Lemma latency_Add_max (l : latency) (d : Duration) :
  max (latency_Add l d) = Z.max (max l) d.
Proof.
  unfold latency_Add. cbn [max].
  destruct (Z.gtb_spec d (max l)); lia.
Qed.

Lemma latency_fold_extremes (ds : list Duration) (l : latency) :
  min (fold_left latency_Add ds l) = fold_left Z.min ds (min l)
  /\ max (fold_left latency_Add ds l) = fold_left Z.max ds (max l).
Proof.
  revert l. induction ds as [|d ds IH]; intros l; cbn [fold_left]; [auto|].
  destruct (IH (latency_Add l d)) as [Hmin Hmax].
  rewrite Hmin, Hmax, latency_Add_min, latency_Add_max. auto.
Qed.

Lemma fold_min_bounds (ds : list Z) (a : Z) :
  fold_left Z.min ds a <= a /\ Forall (fun d => fold_left Z.min ds a <= d) ds.
Proof.
  revert a. induction ds as [|d ds IH]; intros a; cbn [fold_left].
  - split; [lia | constructor].
  - destruct (IH (Z.min a d)) as [Hle Hall]. split; [lia|].
    constructor; [lia | exact Hall].
Qed.

Lemma fold_max_bounds (ds : list Z) (a : Z) :
  a <= fold_left Z.max ds a /\ Forall (fun d => d <= fold_left Z.max ds a) ds.
Proof.
  revert a. induction ds as [|d ds IH]; intros a; cbn [fold_left].
  - split; [lia | constructor].
  - destruct (IH (Z.max a d)) as [Hle Hall]. split; [lia|].
    constructor; [lia | exact Hall].
Qed.

(** X1.  Whatever the samples, the minimum and the maximum the
    aggregator holds are the least and the greatest of zero and the
    samples (both fields start at zero and are never reset): every sample
    lies between them, and so does zero. *)
Theorem latency_extremes (ds : list Duration) :
  min (samples ds) = fold_left Z.min ds 0
  /\ max (samples ds) = fold_left Z.max ds 0
  /\ min (samples ds) <= 0 <= max (samples ds)
  /\ Forall (fun d => min (samples ds) <= d <= max (samples ds)) ds.
Proof.
  unfold samples.
  destruct (latency_fold_extremes ds latency_zero) as [Hmin Hmax].
  cbn [min max latency_zero] in Hmin, Hmax. rewrite Hmin, Hmax.
  destruct (fold_min_bounds ds 0) as [Hlo Hlos].
  destruct (fold_max_bounds ds 0) as [Hhi Hhis].
  repeat split; try assumption.
  rewrite Forall_forall in *. intros d Hd. split; [apply Hlos | apply Hhis]; exact Hd.
Qed.

Lemma latency_fold_count (ds : list Duration) (l : latency) :
  0 <= n l -> n l + Z.of_nat (length ds) < 2 ^ 63 ->
  n (fold_left latency_Add ds l) = n l + Z.of_nat (length ds).
Proof.
  revert l. induction ds as [|d ds IH]; intros l Hlo Hhi; cbn [fold_left length] in *.
  - lia.
  - assert (Hstep : n (latency_Add l d) = n l + 1).
    { unfold latency_Add, wrapI64. cbn [n]. rewrite Z.mod_small by lia. lia. }
    rewrite IH; rewrite Hstep; lia.
Qed.

Lemma sum_durations_nonneg (ds : list Duration) :
  Forall (fun d => 0 <= d) ds -> 0 <= sum_durations ds.
Proof.
  induction 1 as [|d ds Hd _ IH]; cbn [sum_durations fold_right]; [lia|].
  fold (sum_durations ds). lia.
Qed.

Lemma latency_fold_total (ds : list Duration) (l : latency) :
  Forall (fun d => 0 <= d) ds ->
  0 <= total l -> total l + sum_durations ds < 2 ^ 63 ->
  total (fold_left latency_Add ds l) = total l + sum_durations ds.
Proof.
  intros Hall. revert l.
  induction Hall as [|d ds Hd Hds IH]; intros l Hlo Hhi;
    cbn [fold_left sum_durations fold_right] in *.
  - lia.
  - fold (sum_durations ds) in *.
    pose proof (sum_durations_nonneg ds Hds) as Hs.
    assert (Hstep : total (latency_Add l d) = total l + d).
    { unfold latency_Add, wrapI64. cbn [total]. rewrite Z.mod_small by lia. lia. }
    rewrite IH; rewrite Hstep; lia.
Qed.

(** X2.  For samples that are not negative and whose sum and number fit
    an [int64], the count is the number of samples and the total their
    sum: nothing wraps around. *)
Theorem latency_count_total (ds : list Duration) :
  Forall (fun d => 0 <= d) ds ->
  sum_durations ds < 2 ^ 63 ->
  Z.of_nat (length ds) < 2 ^ 63 ->
  n (samples ds) = Z.of_nat (length ds)
  /\ total (samples ds) = sum_durations ds.
Proof.
  intros Hall Hsum Hlen. unfold samples. split.
  - rewrite latency_fold_count; cbn [n latency_zero]; lia.
  - rewrite latency_fold_total; cbn [total latency_zero]; auto; lia.
Qed.

Lemma latency_count_total_witness :
  n (samples [100 * Millisecond; 300 * Millisecond; 50 * Millisecond]) = 3
  /\ total (samples [100 * Millisecond; 300 * Millisecond; 50 * Millisecond])
     = 450 * Millisecond.
Proof.
  apply (latency_count_total [100 * Millisecond; 300 * Millisecond; 50 * Millisecond]).
  - repeat (constructor; [vm_compute; discriminate|]). constructor.
  - vm_compute. reflexivity.
  - vm_compute. reflexivity.
Defined.

Lemma sum_durations_le (ds : list Duration) (m : Z) :
  Forall (fun d => d <= m) ds -> sum_durations ds <= Z.of_nat (length ds) * m.
Proof.
  induction 1 as [|d ds Hd _ IH]; cbn [sum_durations fold_right length]; [lia|].
  fold (sum_durations ds). lia.
Qed.

(** X3.  For a non-empty run of samples that are not negative and do
    not overflow, the mean that [String] renders lies between the
    minimum and the maximum it renders. *)
Theorem latency_mean_bounds (ds : list Duration) :
  ds <> [] ->
  Forall (fun d => 0 <= d) ds ->
  sum_durations ds < 2 ^ 63 ->
  Z.of_nat (length ds) < 2 ^ 63 ->
  min (samples ds) <= latency_mean (samples ds) <= max (samples ds).
Proof.
  intros Hne Hall Hsum Hlen.
  pose proof (sum_durations_nonneg ds Hall) as Hs.
  assert (Hpos : 0 < Z.of_nat (length ds)) by (destruct ds; [congruence | cbn; lia]).
  destruct (latency_fold_extremes ds latency_zero) as [Hmin Hmax].
  cbn [min max latency_zero] in Hmin, Hmax.
  destruct (fold_min_bounds ds 0) as [Hlo _].
  destruct (fold_max_bounds ds 0) as [_ Hhis].
  unfold latency_mean, samples.
  rewrite Hmin, Hmax, latency_fold_count, latency_fold_total;
    cbn [n total latency_zero]; auto; try lia.
  rewrite !Z.add_0_l, Z.quot_div_nonneg by lia.
  pose proof (Z.div_pos (sum_durations ds) (Z.of_nat (length ds)) Hs Hpos) as Hq0.
  assert (Hq1 : sum_durations ds / Z.of_nat (length ds) <= sum_durations ds)
    by (apply Z.div_le_upper_bound; [exact Hpos | nia]).
  unfold wrapI64. rewrite Z.mod_small by lia.
  split; [lia|].
  assert (Hq2 : sum_durations ds / Z.of_nat (length ds) <= fold_left Z.max ds 0).
  { apply Z.div_le_upper_bound; [exact Hpos|].
    apply sum_durations_le. exact Hhis. }
  lia.
Qed.

Lemma latency_mean_bounds_witness :
  min (samples [100 * Millisecond; 300 * Millisecond; 50 * Millisecond])
  <= latency_mean (samples [100 * Millisecond; 300 * Millisecond; 50 * Millisecond])
  <= max (samples [100 * Millisecond; 300 * Millisecond; 50 * Millisecond]).
Proof.
  apply (latency_mean_bounds [100 * Millisecond; 300 * Millisecond; 50 * Millisecond]).
  - discriminate.
  - repeat (constructor; [vm_compute; discriminate|]). constructor.
  - vm_compute. reflexivity.
  - vm_compute. reflexivity.
Defined.

Lemma latency_String_sentinel (l : latency) :
  latency_String l = "--"%string <-> n l = 0.
Proof.
  unfold latency_String.
  destruct (Z.eqb_spec (n l) 0) as [Hz|Hnz].
  - split; auto.
  - split; [|contradiction]. cbn. discriminate.
Qed.

(** X4.  [String] renders the "--" of no data exactly when no sample
    has been added (for fewer than [2^63] samples, so that the count has
    not wrapped). *)
Theorem latency_String_no_data (ds : list Duration) :
  Z.of_nat (length ds) < 2 ^ 63 ->
  latency_String (samples ds) = "--"%string <-> ds = [].
Proof.
  intros Hlen. rewrite latency_String_sentinel. unfold samples.
  rewrite latency_fold_count; cbn [n latency_zero]; try lia.
  destruct ds; cbn [length]; split; intros; try congruence; lia.
Qed.

Lemma latency_String_no_data_witness :
  latency_String (samples [0]) = "--"%string <-> [0] = @nil Duration.
Proof.
  apply (latency_String_no_data [0]). vm_compute. reflexivity.
Defined.

(** ** The handler and the storage engine *)

(** X5.  The handler hands the body to [Sequence] only when it has read
    it: if reading the request body fails the storage engine is left as
    it was, otherwise it is left as [Sequence] left it, whether
    [Sequence] succeeded or not. *)
Theorem addHandler_storage
  {S : Type} `{Storage S}
  (elapsed : Duration) (r : Request) (w : ResponseWriter) (s : S) (l : latency) :
  snd (fst (addHandler elapsed r w s l))
  = match ReadAll_Body r with
    | Err _ => s
    | Ok b => fst (Sequence b s)
    end.
Proof.
  unfold addHandler.
  destruct (ReadAll_Body r) as [b|e]; [|reflexivity].
  destruct (Sequence b s) as [s' [idx|err]]; reflexivity.
Qed.

(** X6.  The body of a successful answer is the index in decimal and a
    line feed: cutting it at the line feed and parsing the digits gives
    back the index [Sequence] returned, and nothing follows the line
    feed. *)
Theorem addHandler_index_roundtrip
  {S : Type} `{Storage S}
  (elapsed : Duration) (r : Request) (s s' : S) (l : latency)
  (b : list byte) (idx : Z) :
  ReadAll_Body r = Ok b ->
  Sequence b s = (s', Ok idx) ->
  isU64 idx ->
  exists digits,
    Cut (body (fst (fst (addHandler elapsed r ResponseWriter_new s l)))) LF
    = Some (digits, [])
    /\ ParseUint digits = Ok idx.
Proof.
  intros Hr Hseq Hidx. unfold addHandler. rewrite Hr, Hseq.
  exists (FormatUint idx). cbn [fst snd body Write WriteHeader ResponseWriter_new status app].
  split; [|apply ParseUint_FormatUint; exact Hidx].
  apply (Cut_app (FormatUint idx) [] LF).
  apply graphic_Forall_not_LF, FormatUint_graphic.
Qed.

Lemma addHandler_index_roundtrip_witness :
  exists digits,
    Cut (body (fst (fst (addHandler 1000
                           {| ReadAll_Body := Ok (list_byte_of_string "hello") |}
                           ResponseWriter_new
                           {| entries := [[x61]; [x62]]; out_of_order := false |}
                           latency_zero)))) LF
    = Some (digits, [])
    /\ ParseUint digits = Ok 2.
Proof.
  apply (addHandler_index_roundtrip 1000
           {| ReadAll_Body := Ok (list_byte_of_string "hello") |}
           {| entries := [[x61]; [x62]]; out_of_order := false |}
           {| entries := [[x61]; [x62]; list_byte_of_string "hello"]; out_of_order := false |}
           latency_zero (list_byte_of_string "hello") 2).
  - reflexivity.
  - reflexivity.
  - unfold isU64. lia.
Defined.

(** ** Errors and refusals of [currentTree] *)

(** X7.  Every error of [currentTree] comes with size 0 and no hash,
    and is one of two: the re-worded read error, or the error of
    [f_log.ParseCheckpoint] itself, returned as it is. *)
Theorem currentTree_errors
  {FS : Type} `{posix.Store FS}
  (path : string) (v : note.Verifier) (fs : FS)
  (size : Z) (hash : list byte) (err : error) :
  currentTree path v fs = (size, hash, Some err) ->
  size = 0 /\ hash = []
  /\ ((exists e, posix.ReadCheckpoint path fs = Err e
                 /\ err = errorString ("ReadCheckpoint: " +:+ Error e))
      \/ (exists b, posix.ReadCheckpoint path fs = Ok b
                    /\ f_log.ParseCheckpoint b (note.Verifier_Name v) v = Err err)).
Proof.
  unfold currentTree.
  destruct (posix.ReadCheckpoint path fs) as [b|e] eqn:Hr.
  - destruct (f_log.ParseCheckpoint b (note.Verifier_Name v) v) as [[[cp rest] n]|e] eqn:Hp.
    + discriminate.
    + intros [= <- <- <-]. repeat split. right. exists b. auto.
  - intros [= <- <- <-]. repeat split. left. exists e. auto.
Qed.

Lemma currentTree_errors_witness :
  (0 = 0 /\ @nil byte = []
   /\ ((exists e, posix.ReadCheckpoint log_root Disk_empty = Err e
                  /\ errorString
                       "ReadCheckpoint: open /tmp/log/checkpoint: no such file or directory"
                     = errorString ("ReadCheckpoint: " +:+ Error e))
       \/ (exists b, posix.ReadCheckpoint log_root Disk_empty = Ok b
                     /\ f_log.ParseCheckpoint b (note.Verifier_Name betty_verifier)
                          betty_verifier
                        = Err (errorString
                                 "ReadCheckpoint: open /tmp/log/checkpoint: no such file or directory")))).
Proof.
  apply (currentTree_errors log_root betty_verifier Disk_empty 0 []
           (errorString "ReadCheckpoint: open /tmp/log/checkpoint: no such file or directory")).
  reflexivity.
Defined.

(** X8.  [currentTree] asks for the verifier's name as origin: a
    checkpoint that the matching key has signed, but whose body declares
    another origin, is refused. *)
Theorem currentTree_wrong_origin
  {FS : Type} `{posix.Store FS}
  (path : string) (s : note.Signer) (v : note.Verifier)
  (cp : f_log.Checkpoint) (msg : list byte) (fs : FS) :
  signer_ok s -> matching s v ->
  note.isValidName (f_log.Origin cp) = true ->
  forallb note.text_byte (list_byte_of_string (f_log.Origin cp)) = true ->
  isU64 (f_log.Size cp) ->
  f_log.Origin cp <> note.Verifier_Name v ->
  note.Sign (note_of (f_log.Marshal cp)) s = Ok msg ->
  posix.ReadCheckpoint path fs = Ok msg ->
  exists err, currentTree path v fs = (0, [], Some err).
Proof.
  intros Hok (Hmn & Hmk & Hmv) Hvalid Htext Hsize Horigin Hsign Hr.
  apply isValidName_inv in Hvalid as (Hne & _ & Hlf).
  destruct (Open_Sign s v _ _ Hok (Marshal_text_byte cp Htext) Hsign) as (sig & Hsig & Hopen).
  rewrite Hmn, Hmk, String.eqb_refl, Z.eqb_refl, (Hmv _ _ Hsig) in Hopen.
  cbn [andb] in Hopen.
  unfold currentTree. rewrite Hr.
  unfold f_log.ParseCheckpoint. rewrite Hopen.
  cbn [note.Sigs note.Text List.find].
  unfold f_log.log_signature. cbn [note.Sig_Hash note.Sig_Name].
  rewrite Hmn, Hmk, String.eqb_refl, Z.eqb_refl. cbn [andb].
  rewrite list_byte_of_string_of_list_byte, (Unmarshal_Marshal cp Hne Hlf Hsize).
  rewrite <- Hmn, (string_eqb_neq _ _ Horigin). cbn [negb]. eauto.
Qed.

Lemma currentTree_wrong_origin_witness :
  exists err,
    currentTree log_root betty_verifier
      (disk_holding (signed_bytes betty_signer
                       {| f_log.Origin := "Other-Log"; f_log.Size := 9;
                          f_log.Hash := Empty |}))
    = (0, [], Some err).
Proof.
  unfold signed_bytes.
  destruct (note.Sign (note_of (f_log.Marshal {| f_log.Origin := "Other-Log";
                                                 f_log.Size := 9; f_log.Hash := Empty |}))
              betty_signer) as [msg|e] eqn:Hsign; [|vm_compute in Hsign; discriminate].
  apply (currentTree_wrong_origin log_root betty_signer betty_verifier
           {| f_log.Origin := "Other-Log"; f_log.Size := 9; f_log.Hash := Empty |} msg).
  - exact betty_signer_ok.
  - apply test_keys_matching.
  - reflexivity.
  - reflexivity.
  - unfold isU64. cbn. lia.
  - cbn. discriminate.
  - exact Hsign.
  - cbn [posix.ReadCheckpoint Disk_Store checkpoints disk_holding].
    rewrite lookup_singleton_eq. reflexivity.
Defined.

(** ** Startup over an existing checkpoint *)

Section StartupFacts.

Context {FS : Type} `{posix.Store FS}.

(** [currentTree] looks at the file system through [ReadCheckpoint] only. *)
Lemma currentTree_read_eq (path : string) (v : note.Verifier) (fs1 fs2 : FS) :
  posix.ReadCheckpoint path fs1 = posix.ReadCheckpoint path fs2 ->
  currentTree path v fs1 = currentTree path v fs2.
Proof. intros Hr. unfold currentTree. rewrite Hr. reflexivity. Qed.

Lemma startup_valid (path : string) (sKey : note.Signer) (vKey : note.Verifier)
  (fs fs1 : FS) (size : Z) (hash : list byte) :
  posix.MkdirAll path fs = (fs1, None) ->
  currentTree path vKey fs1 = (size, hash, None) ->
  startup path sKey vKey fs = ([], Serving fs1).
Proof.
  intros Hmk Hct. unfold startup. rewrite Hmk, Hct. reflexivity.
Qed.

(** How a startup that goes on to serve got there. *)
Lemma startup_serving_cases (path : string) (sKey : note.Signer) (vKey : note.Verifier)
  (fs fs' : FS) (logs : list logLine) :
  startup path sKey vKey fs = (logs, Serving fs') ->
  exists fs1,
    posix.MkdirAll path fs = (fs1, None)
    /\ ((exists size hash, currentTree path vKey fs1 = (size, hash, None) /\ fs' = fs1)
        \/ newTree path sKey 0 Empty fs1 = (fs', None)).
Proof.
  unfold startup. fold Empty.
  destruct (posix.MkdirAll path fs) as [fs1 [e|]]; [discriminate|].
  intros Hst. exists fs1. split; [reflexivity|].
  destruct (currentTree path vKey fs1) as [[size hash] [err|]] eqn:Hct.
  - destruct (newTree path sKey 0 Empty fs1) as [fs2 [e|]]; [discriminate|].
    injection Hst as _ <-. right. reflexivity.
  - injection Hst as _ <-. left. eauto.
Qed.

End StartupFacts.

(** X9.  A checkpoint that [currentTree] accepts is never overwritten
    at startup: [main] logs nothing, publishes nothing, and goes on with
    the file system as [os.MkdirAll] left it. *)
Theorem startup_keeps_valid_checkpoint
  {FS : Type} `{posix.Store FS}
  (path : string) (sKey : note.Signer) (vKey : note.Verifier)
  (fs fs1 : FS) (size : Z) (hash : list byte) :
  posix.MkdirAll path fs = (fs1, None) ->
  currentTree path vKey fs1 = (size, hash, None) ->
  startup path sKey vKey fs = ([], Serving fs1).
Proof.
  intros Hmk Hct. unfold startup. rewrite Hmk, Hct. reflexivity.
Qed.

Lemma startup_keeps_valid_checkpoint_witness :
  currentTree log_root betty_verifier (fst (posix.MkdirAll log_root (disk_with 5)))
  = (5, Empty, None)
  /\ startup log_root betty_signer betty_verifier (disk_with 5)
     = ([], Serving (fst (posix.MkdirAll log_root (disk_with 5)))).
Proof.
  split; [vm_compute; reflexivity|].
  apply (startup_keeps_valid_checkpoint log_root betty_signer betty_verifier (disk_with 5)
           _ 5 Empty).
  - reflexivity.
  - vm_compute. reflexivity.
Defined.

(** X10.  Starting again after a successful startup changes nothing:
    with a well-formed signer and its matching verifier, on a store that
    returns what was written and whose checkpoint [os.MkdirAll] leaves
    alone, the second startup logs nothing and publishes nothing. *)
Theorem startup_restart
  {FS : Type} `{posix.Store FS} `{!posix.StoreLaws FS}
  (path : string) (sKey : note.Signer) (vKey : note.Verifier)
  (fs fs' fs'' : FS) (logs : list logLine) :
  signer_ok sKey -> matching sKey vKey ->
  startup path sKey vKey fs = (logs, Serving fs') ->
  posix.MkdirAll path fs' = (fs'', None) ->
  posix.ReadCheckpoint path fs'' = posix.ReadCheckpoint path fs' ->
  startup path sKey vKey fs' = ([], Serving fs'').
Proof.
  intros Hok Hm Hst Hmk Hread.
  assert (Hacc : exists size hash, currentTree path vKey fs' = (size, hash, None)).
  { apply startup_serving_cases in Hst as (fs1 & _ & [(size & hash & Hct & ->) | Hnt]).
    - eauto.
    - apply newTree_published in Hnt as (msg & Hsign & Hw).
      apply posix.read_after_write in Hw.
      exists 0, Empty.
      apply (currentTree_of_signed path sKey vKey 0 Empty msg fs' Hok Hm);
        [unfold isU64; lia | exact Hsign | exact Hw]. }
  destruct Hacc as (size & hash & Hct).
  rewrite <- (currentTree_read_eq path vKey fs'' fs' Hread) in Hct.
  exact (startup_valid path sKey vKey fs' fs'' size hash Hmk Hct).
Qed.

Lemma startup_restart_witness :
  exists fs',
    snd (startup log_root betty_signer betty_verifier Disk_empty) = Serving fs'
    /\ startup log_root betty_signer betty_verifier fs'
       = ([], Serving (fst (posix.MkdirAll log_root fs'))).
Proof.
  destruct (startup log_root betty_signer betty_verifier Disk_empty) as [logs [msg|fs']] eqn:Hst;
    [vm_compute in Hst; discriminate|].
  exists fs'. split; [reflexivity|].
  apply (startup_restart log_root betty_signer betty_verifier Disk_empty fs' _ logs).
  - exact betty_signer_ok.
  - apply test_keys_matching.
  - exact Hst.
  - reflexivity.
  - reflexivity.
Defined.

(** X11.  With a well-formed signer (a [uint32] key hash, a name
    without control characters, signatures that are not empty) and its
    matching verifier, on a store that returns what was written: a
    checkpoint that is on disk but that [currentTree] refuses is replaced
    at startup.  When the publication succeeds, the store then holds the
    signed checkpoint of size 0 and hash "Empty", not the bytes it held,
    and the verifier reads back size 0. *)
Theorem startup_resets_refused_checkpoint
  {FS : Type} `{posix.Store FS} `{!posix.StoreLaws FS}
  (path : string) (sKey : note.Signer) (vKey : note.Verifier)
  (fs fs1 fs2 : FS) (old : list byte) (size : Z) (hash : list byte) (err : error) :
  signer_ok sKey -> matching sKey vKey ->
  posix.MkdirAll path fs = (fs1, None) ->
  posix.ReadCheckpoint path fs1 = Ok old ->
  currentTree path vKey fs1 = (size, hash, Some err) ->
  newTree path sKey 0 Empty fs1 = (fs2, None) ->
  startup path sKey vKey fs = ([Infof ("ct: " +:+ Error err)], Serving fs2)
  /\ currentTree path vKey fs2 = (0, Empty, None)
  /\ exists msg, posix.ReadCheckpoint path fs2 = Ok msg /\ msg <> old.
Proof.
  intros Hok Hm Hmk Hold Hct Hnt.
  split; [|split].
  - unfold startup. rewrite Hmk, Hct. fold Empty. rewrite Hnt. reflexivity.
  - apply newTree_published in Hnt as (msg & Hsign & Hw).
    apply posix.read_after_write in Hw.
    apply (currentTree_of_signed path sKey vKey 0 Empty msg fs2 Hok Hm);
      [unfold isU64; lia | exact Hsign | exact Hw].
  - apply newTree_published in Hnt as (msg & Hsign & Hw).
    apply posix.read_after_write in Hw.
    exists msg. split; [exact Hw|]. intros ->.
    assert (Hacc : currentTree path vKey fs1 = (0, Empty, None)).
    { apply (currentTree_of_signed path sKey vKey 0 Empty old fs1 Hok Hm);
        [unfold isU64; lia | exact Hsign | exact Hold]. }
    rewrite Hacc in Hct. discriminate.
Qed.

Lemma startup_resets_refused_checkpoint_witness :
  let old := signed_bytes other_signer (checkpoint_of other_signer 5 Empty) in
  exists fs2,
    startup log_root betty_signer betty_verifier (disk_holding old)
    = ([Infof "ct: failed to verify signatures on checkpoint: invalid signature for key Test-Betty"],
       Serving fs2)
    /\ currentTree log_root betty_verifier fs2 = (0, Empty, None)
    /\ exists msg, posix.ReadCheckpoint log_root fs2 = Ok msg /\ msg <> old.
Proof.
  intros old.
  exists (fst (newTree log_root betty_signer 0 Empty
                 (fst (posix.MkdirAll log_root (disk_holding old))))).
  apply (startup_resets_refused_checkpoint log_root betty_signer betty_verifier
           (disk_holding old) (fst (posix.MkdirAll log_root (disk_holding old))) _
           old 0 []
           (errorString
              "failed to verify signatures on checkpoint: invalid signature for key Test-Betty")).
  - exact betty_signer_ok.
  - apply test_keys_matching.
  - reflexivity.
  - vm_compute. reflexivity.
  - vm_compute. reflexivity.
  - vm_compute. reflexivity.
Defined.

(** ** The stats reporter: cancellation and growth *)

Lemma printStats_loop_failed {FS : Type} (s : posix.CurrentTreeFunc FS)
  (last : Z) (fails : list (@event FS)) :
  Forall (tick_failed s) fails ->
  snd (printStats_loop s last fails) = last /\ Forall (@is_tick FS) fails.
Proof.
  induction 1 as [|e fails (fs & l & size & hash & err & -> & Hs) _ [IHl IHt]].
  - split; [reflexivity | constructor].
  - cbn [printStats_loop]. unfold printStats_tick. rewrite Hs.
    destruct (printStats_loop s last fails) as [o1 l1]. cbn [snd] in *.
    split; [exact IHl|]. constructor; [discriminate | exact IHt].
Qed.

(** X12.  Once the context is done the loop returns: whatever events
    come after, nothing more is logged and [lastSize] stays as it was. *)
Theorem printStats_stops_when_done
  {FS : Type} (s : posix.CurrentTreeFunc FS) (pre rest : list (@event FS)) :
  Forall (fun e => e <> CtxDone) pre ->
  printStats s (pre ++ CtxDone :: rest) = printStats s pre.
Proof.
  intros Hpre. unfold printStats.
  rewrite (printStats_loop_app s 0 pre (CtxDone :: rest) Hpre).
  cbn [printStats_loop fst snd]. rewrite app_nil_r.
  destruct (printStats_loop s 0 pre). reflexivity.
Qed.

Lemma printStats_stops_when_done_witness :
  printStats (currentTree log_root betty_verifier)
    (stats_run ++ CtxDone :: [After (disk_with 7) latency_zero])
  = printStats (currentTree log_root betty_verifier) stats_run.
Proof.
  apply (printStats_stops_when_done (currentTree log_root betty_verifier) stats_run).
  unfold stats_run. repeat (constructor; [discriminate|]). constructor.
Defined.

(** X13.  The growth a tick reports is counted from the latest tick
    that succeeded, however many ticks failed in between, and it is a
    [uint64] difference: when the tree is smaller than it was, the
    reported growth wraps around to [2^64 + size2 - size1]. *)
Theorem printStats_growth
  {FS : Type} (s : posix.CurrentTreeFunc FS)
  (pre fails : list (@event FS)) (fs1 fs2 : FS) (l1 l2 : latency)
  (size1 size2 : Z) (hash1 hash2 : list byte) :
  Forall (fun e => e <> CtxDone) pre ->
  s fs1 = (size1, hash1, None) -> 0 < size1 < 2 ^ 64 ->
  Forall (tick_failed s) fails ->
  s fs2 = (size2, hash2, None) -> isU64 size2 ->
  exists logs,
    printStats s (pre ++ After fs1 l1 :: fails ++ [After fs2 l2])
    = (logs ++ [Infof (stats_line size2
                         (if size1 <=? size2 then size2 - size1
                          else 2 ^ 64 + size2 - size1) l2)],
       size2).
Proof.
  intros Hpre Hs1 Hsize1 Hfails Hs2 Hsize2.
  destruct (printStats_loop_failed s size1 fails Hfails) as [Hlast Hticks].
  assert (Hadded : wrapU64 (size2 - size1)
                   = if size1 <=? size2 then size2 - size1 else 2 ^ 64 + size2 - size1).
  { unfold wrapU64. destruct Hsize2 as [Hlo Hhi].
    destruct (Z.leb_spec size1 size2).
    - apply Z.mod_small. lia.
    - rewrite <- (Z.mod_add _ 1) by lia. rewrite Z.mod_small; lia. }
  assert (Htick1 : forall last, snd (printStats_tick s last fs1 l1) = size1)
    by (intros last; unfold printStats_tick; rewrite Hs1; reflexivity).
  assert (Htick2 : printStats_tick s size1 fs2 l2
                   = ([Infof (stats_line size2
                                (if size1 <=? size2 then size2 - size1
                                 else 2 ^ 64 + size2 - size1) l2)], size2)).
  { unfold printStats_tick. rewrite Hs2, Hadded.
    destruct (Z.gtb_spec size1 0) as [_|Hle]; [reflexivity | lia]. }
  unfold printStats.
  rewrite (printStats_loop_app s 0 pre _ Hpre).
  cbn [printStats_loop].
  destruct (printStats_tick s (snd (printStats_loop s 0 pre)) fs1 l1) as [out1 last1] eqn:Ht1.
  assert (last1 = size1) as -> by (rewrite <- (Htick1 (snd (printStats_loop s 0 pre))), Ht1;
                                   reflexivity).
  rewrite (printStats_loop_app s size1 fails [After fs2 l2] Hticks), Hlast.
  cbn [printStats_loop]. rewrite Htick2. cbn [fst snd].
  eexists. rewrite app_nil_r, !app_assoc. reflexivity.
Qed.

Lemma printStats_growth_witness :
  exists logs,
    printStats (currentTree log_root betty_verifier)
      ([After (disk_with 0) latency_zero]
         ++ After (disk_with 7) latency_zero
              :: [After Disk_empty latency_zero] ++ [After (disk_with 5) latency_zero])
    = (logs ++ [Infof (stats_line 5 (if 7 <=? 5 then 5 - 7 else 2 ^ 64 + 5 - 7) latency_zero)],
       5).
Proof.
  apply (printStats_growth (currentTree log_root betty_verifier)
           [After (disk_with 0) latency_zero] [After Disk_empty latency_zero]
           (disk_with 7) (disk_with 5) latency_zero latency_zero 7 5 Empty Empty).
  - repeat (constructor; [discriminate|]). constructor.
  - vm_compute. reflexivity.
  - lia.
  - constructor; [|constructor].
    exists Disk_empty, latency_zero, 0, [],
      (errorString "ReadCheckpoint: open /tmp/log/checkpoint: no such file or directory").
    split; reflexivity.
  - vm_compute. reflexivity.
  - unfold isU64. lia.
Defined.

(** ** The aggregator under reordering *)

Lemma wrapI64_add_l (a b : Z) : wrapI64 (wrapI64 a + b) = wrapI64 (a + b).
Proof.
  unfold wrapI64. f_equal.
  replace ((a + 2 ^ 63) mod 2 ^ 64 - 2 ^ 63 + b + 2 ^ 63)
    with ((a + 2 ^ 63) mod 2 ^ 64 + b) by lia.
  rewrite Zplus_mod_idemp_l. f_equal. lia.
Qed.

Lemma latency_Add_swap (l : latency) (a b : Duration) :
  latency_Add (latency_Add l a) b = latency_Add (latency_Add l b) a.
Proof.
  assert (Hfields : forall x y : latency,
             total x = total y -> n x = n y -> min x = min y -> max x = max y -> x = y).
  { intros [] [] H1 H2 H3 H4. cbn in *. congruence. }
  apply Hfields.
  - unfold latency_Add. cbn [total]. rewrite !wrapI64_add_l. f_equal. lia.
  - unfold latency_Add. cbn [n]. reflexivity.
  - rewrite !latency_Add_min. lia.
  - rewrite !latency_Add_max. lia.
Qed.

(** X14.  The aggregator does not depend on the order in which the
    samples are added, overflow included: two runs over the same samples
    leave the same count, total, minimum and maximum, and so the same
    [String]. *)
Theorem latency_order_irrelevant (ds1 ds2 : list Duration) :
  Permutation ds1 ds2 ->
  samples ds1 = samples ds2
  /\ latency_String (samples ds1) = latency_String (samples ds2).
Proof.
  intros Hperm.
  assert (Hgen : forall l, fold_left latency_Add ds1 l = fold_left latency_Add ds2 l).
  { induction Hperm as [|d ds ds' _ IH|a b ds|ds ds' ds'' _ IH1 _ IH2]; intros l;
      cbn [fold_left].
    - reflexivity.
    - apply IH.
    - rewrite latency_Add_swap. reflexivity.
    - rewrite IH1. apply IH2. }
  unfold samples. rewrite (Hgen latency_zero). split; reflexivity.
Qed.

Lemma latency_order_irrelevant_witness :
  samples [100 * Millisecond; 300 * Millisecond; 50 * Millisecond]
  = samples [50 * Millisecond; 100 * Millisecond; 300 * Millisecond]
  /\ latency_String (samples [100 * Millisecond; 300 * Millisecond; 50 * Millisecond])
     = latency_String (samples [50 * Millisecond; 100 * Millisecond; 300 * Millisecond]).
Proof.
  apply (latency_order_irrelevant
           [100 * Millisecond; 300 * Millisecond; 50 * Millisecond]
           [50 * Millisecond; 100 * Millisecond; 300 * Millisecond]).
  symmetry.
  apply (Permutation_cons_append [100 * Millisecond; 300 * Millisecond] (50 * Millisecond)).
Defined.
